(** * dquota: the quota-check orchestrator of vsc-filesystems-quota

    A shallow embedding of [bin/dquota.py].  The script is one function,
    [main]; it calls out to the account page, LDAP, GPFS and the quota tools,
    logs, fills three dictionaries and finally hands the [stats] dictionary
    to the Nagios reporter.

    - Python dictionaries are [gmap]s with string keys.
    - Every call that leaves the script is a field of [Env]; it returns a
      [result], so that it can raise.
    - The observable behaviour of a run is the list of [event]s it emits
      (calls, log records, the Nagios report), in order, and how it ends. *)

From stdpp Require Import gmap strings list fin_maps.
From Stdlib Require Import ZArith.

#[local] Set Warnings "-clear-no-such-hyp".
Local Open Scope Z_scope.

(** ** Exceptions and results *)

(** Instances of Python's [Exception]: what [except Exception] catches. *)
Inductive exn : Type :=
| KeyError (key : string)
| Failure (detail : string).

Inductive result (A : Type) : Type :=
| Ok (a : A)
| Raise (e : exn).
Arguments Ok {A} a.
Arguments Raise {A} e.

(** ** Data of the script *)

(** An entry of [VscStorage]: the two attributes [main] reads. *)
Record Storage : Type := {
  filesystem : string;
  data_replication_factor : Z
}.

(** The parsed command line, [opts.options]. *)
Record Options : Type := {
  storage : list string;
  account_page_url : string;
  access_token : option string;
  dry_run : bool
}.

(** [vsc.utils.nagios.NAGIOS_EXIT_CRITICAL], kept symbolic. *)
Inductive exit_code : Type := NAGIOS_EXIT_CRITICAL.

Definition QUOTA_USERS_WARNING : Z := 20.
Definition QUOTA_USERS_CRITICAL : Z := 40.
Definition QUOTA_FILESETS_CRITICAL : Z := 1.

Inductive level : Type := debug | info | warning | error | exception.

(** How a run of [main] ends. *)
Inductive termination : Type :=
| returned                      (* [main] returns: exit status 0 *)
| sys_exit (code : exit_code)   (* [sys.exit(code)] *)
| uncaught (e : exn).           (* raised outside the [try] *)

Section Dquota.

(** Objects the script only passes around. *)
Context {Client UidMap LdapConf Gpfs FsInfo Filesets RawQuota QuotaMap Quota : Type}.

(** An exceeding item is a pair, as the loops over them destructure:
    [(e_fileset, e_quota)] and [(e_user_id, e_quota)]. *)
Definition items : Type := list (string * Quota).

(** The three dictionaries [main] fills in its loop. *)
Record locals : Type := {
  exceeding_filesets : gmap string items;
  exceeding_users : gmap string items;
  stats : gmap string Z
}.

(** A log call: the format string and its arguments. *)
Inductive log_record : Type :=
| found_filesystems (filesystems : list string)
| found_filesets (filesets : Filesets)
| processing_quota (storage_name : string)
| non_existent_filesystem (fs : string)
| no_quota_defined (storage_name fs : string)
| filesets_exceeding (storage_name : string) (n : nat)
| no_filesets_exceeding (storage_name : string)
| users_exceeding (storage_name : string) (n : nat)
| no_users_exceeding (storage_name : string)
| has_quota (name : string) (quota : Quota)
| critical_exception_caught (err : exn).

Inductive event : Type :=
| Log (l : level) (r : log_record)
| Call_AccountpageClient (token : option string)
| Call_map_uids_to_names
| Call_VscConfiguration
| Call_LdapQuery (cfg : LdapConf)
| Call_GpfsOperations
| Call_VscStorage
| Call_list_filesystems (gpfs : Gpfs) (device : list string)
| Call_list_filesets (gpfs : Gpfs)
| Call_list_quota (gpfs : Gpfs)
| Call_get_mmrepquota_maps (raw : RawQuota) (storage_name fs : string)
    (filesets : Filesets) (replication_factor : Z)
| Call_process_fileset_quota (st : gmap string Storage) (gpfs : Gpfs)
    (storage_name fs : string) (quota_map : QuotaMap) (client : Client)
    (dry : bool)
| Call_process_user_quota (st : gmap string Storage) (gpfs : Gpfs)
    (storage_name fs : string) (quota_map : QuotaMap) (user_id_map : UidMap)
    (client : Client) (dry : bool)
| Call_notify_exceeding_filesets (gpfs : Gpfs) (storage_name fs : string)
    (exceeding_items : items) (client : Client) (dry : bool)
| Call_notify_exceeding_users (gpfs : Gpfs) (storage_name fs : string)
    (exceeding_items : items) (client : Client) (dry : bool)
| Critical (message : string)                          (* [opts.critical] *)
| Epilogue (message : string) (thresholds : gmap string Z). (* [opts.epilogue] *)

(** Everything [main] imports. *)
Record Env : Type := {
  ExtendedSimpleOption : result Options;
  AccountpageClient : option string → result Client;
  map_uids_to_names : result UidMap;
  VscConfiguration : result LdapConf;
  LdapQuery : LdapConf → result unit;
  GpfsOperations : result Gpfs;
  VscStorage : result (gmap string Storage);
  list_filesystems : Gpfs → list string → result (gmap string FsInfo);
  list_filesets : Gpfs → result Filesets;
  list_quota : Gpfs → result (gmap string RawQuota);
  get_mmrepquota_maps :
    RawQuota → string → string → Filesets → Z → result (gmap string QuotaMap);
  process_fileset_quota :
    gmap string Storage → Gpfs → string → string → QuotaMap → Client → bool →
    result items;
  process_user_quota :
    gmap string Storage → Gpfs → string → string → QuotaMap → UidMap →
    Client → bool → result items;
  notify_exceeding_filesets :
    Gpfs → string → string → items → Client → bool → result unit;
  notify_exceeding_users :
    Gpfs → string → string → items → Client → bool → result unit
}.

(** ** The monad: a trace of events and a result *)

Definition M (A : Type) : Type := list event * result A.

Definition ret {A} (a : A) : M A := ([], Ok a).

Definition bind {A B} (m : M A) (f : A → M B) : M B :=
  match m with
  | (t, Ok a) => let '(t', r) := f a in (t ++ t', r)
  | (t, Raise e) => (t, Raise e)
  end.

Notation "x <- m ;; k" := (bind m (fun x => k))
  (at level 100, m at next level, right associativity).
Notation "m ;;; k" := (bind m (fun _ => k))
  (at level 100, right associativity).

(** A call that leaves the script: it is observed, then returns or raises. *)
Definition call {A} (ev : event) (r : result A) : M A := ([ev], r).

Definition log (l : level) (r : log_record) : M unit := ([Log l r], Ok tt).

(** [d[k]] *)
Definition getitem {V} (d : gmap string V) (k : string) : M V :=
  match d !! k with
  | Some v => ret v
  | None => ([], Raise (KeyError k))
  end.

(** [d.keys()] *)
Definition keys {V} (d : gmap string V) : list string := (map_to_list d).*1.

(** [x in l] *)
Definition contains (l : list string) (x : string) : bool := bool_decide (x ∈ l).

(** [bool(l)] of a list *)
Definition truthy {A} (l : list A) : bool :=
  match l with [] => false | _ => true end.

(** [[f(x) for x in l]], left to right *)
Fixpoint comprehension {A B} (f : A → M B) (l : list A) : M (list B) :=
  match l with
  | [] => ret []
  | x :: l' => y <- f x ;; ys <- comprehension f l' ;; ret (y :: ys)
  end.

(** [for x in l: f(x)] where the body only has effects *)
Fixpoint for_each {A} (f : A → M unit) (l : list A) : M unit :=
  match l with
  | [] => ret tt
  | x :: l' => f x ;;; for_each f l'
  end.

Section Main.

Variable E : Env.

(** ** Lines 98-171: one iteration of the loop over [opts.options.storage] *)

Definition loop_body (opts : Options) (client : Client) (user_id_map : UidMap)
    (gpfs : Gpfs) (st : gmap string Storage) (filesystems : list string)
    (filesets : Filesets) (quota : gmap string RawQuota)
    (storage_name : string) (l : locals) : M locals :=
  log info (processing_quota storage_name) ;;;
  s1 <- getitem st storage_name ;;
  let fs := filesystem s1 in
  s2 <- getitem st storage_name ;;
  let replication_factor := data_replication_factor s2 in
  if negb (contains filesystems fs) then
    log error (non_existent_filesystem fs) ;;;
    ret l                                                      (* continue *)
  else if negb (contains (keys quota) fs) then
    log error (no_quota_defined storage_name fs) ;;;
    ret l                                                      (* continue *)
  else
    raw <- getitem quota fs ;;
    quota_storage_map <-
      call (Call_get_mmrepquota_maps raw storage_name fs filesets replication_factor)
           (get_mmrepquota_maps E raw storage_name fs filesets replication_factor) ;;
    qf <- getitem quota_storage_map "FILESET" ;;
    ef <- call (Call_process_fileset_quota st gpfs storage_name fs qf client (dry_run opts))
               (process_fileset_quota E st gpfs storage_name fs qf client (dry_run opts)) ;;
    let exceeding_filesets := <[storage_name := ef]> (exceeding_filesets l) in
    qu <- getitem quota_storage_map "USR" ;;
    eu <- call (Call_process_user_quota st gpfs storage_name fs qu user_id_map client (dry_run opts))
               (process_user_quota E st gpfs storage_name fs qu user_id_map client (dry_run opts)) ;;
    let exceeding_users := <[storage_name := eu]> (exceeding_users l) in
    let stats := <[storage_name +:+ "_fileset_critical" := QUOTA_FILESETS_CRITICAL]> (stats l) in
    e1 <- getitem exceeding_filesets storage_name ;;
    stats <-
      (if truthy e1 then
         let stats := <[storage_name +:+ "_fileset" := 1]> stats in
         log warning (filesets_exceeding storage_name (size exceeding_filesets)) ;;;
         e2 <- getitem exceeding_filesets storage_name ;;
         for_each (fun '(e_fileset, e_quota) => log warning (has_quota e_fileset e_quota)) e2 ;;;
         ret stats
       else
         let stats := <[storage_name +:+ "_fileset" := 0]> stats in
         log debug (no_filesets_exceeding storage_name) ;;;
         ret stats) ;;
    e3 <- getitem exceeding_filesets storage_name ;;
    call (Call_notify_exceeding_filesets gpfs storage_name fs e3 client (dry_run opts))
         (notify_exceeding_filesets E gpfs storage_name fs e3 client (dry_run opts)) ;;;
    let stats := <[storage_name +:+ "_users_warning" := QUOTA_USERS_WARNING]> stats in
    let stats := <[storage_name +:+ "_users_critical" := QUOTA_USERS_CRITICAL]> stats in
    u1 <- getitem exceeding_users storage_name ;;
    stats <-
      (if truthy u1 then
         u2 <- getitem exceeding_users storage_name ;;
         let stats := <[storage_name +:+ "_users" := Z.of_nat (length u2)]> stats in
         u3 <- getitem exceeding_users storage_name ;;
         log warning (users_exceeding storage_name (length u3)) ;;;
         u4 <- getitem exceeding_users storage_name ;;
         for_each (fun '(e_user_id, e_quota) => log warning (has_quota e_user_id e_quota)) u4 ;;;
         ret stats
       else
         let stats := <[storage_name +:+ "_users" := 0]> stats in
         log debug (no_users_exceeding storage_name) ;;;
         ret stats) ;;
    u5 <- getitem exceeding_users storage_name ;;
    call (Call_notify_exceeding_users gpfs storage_name fs u5 client (dry_run opts))
         (notify_exceeding_users E gpfs storage_name fs u5 client (dry_run opts)) ;;;
    ret {| exceeding_filesets := exceeding_filesets;
           exceeding_users := exceeding_users;
           stats := stats |}.

(** [for storage_name in opts.options.storage: ...] *)
Fixpoint for_loop (body : string → locals → M locals) (names : list string)
    (l : locals) : M locals :=
  match names with
  | [] => ret l
  | storage_name :: rest => l' <- body storage_name l ;; for_loop body rest l'
  end.

(** ** Lines 78-96: what runs before the loop *)

(** The values the loop reads but does not change. *)
Record scan : Type := {
  the_client : Client;
  the_user_id_map : UidMap;
  the_gpfs : Gpfs;
  the_storage : gmap string Storage;
  the_filesystems : list string;
  the_filesets : Filesets;
  the_quota : gmap string RawQuota
}.

Definition prologue (opts : Options) : M scan :=
  client <- call (Call_AccountpageClient (access_token opts))
                 (AccountpageClient E (access_token opts)) ;;
  user_id_map <- call Call_map_uids_to_names (map_uids_to_names E) ;;
  cfg <- call Call_VscConfiguration (VscConfiguration E) ;;
  call (Call_LdapQuery cfg) (LdapQuery E cfg) ;;;
  gpfs <- call Call_GpfsOperations (GpfsOperations E) ;;
  st <- call Call_VscStorage (VscStorage E) ;;
  target_filesystems <-
    comprehension (fun s => x <- getitem st s ;; ret (filesystem x)) (storage opts) ;;
  fsd <- call (Call_list_filesystems gpfs target_filesystems)
              (list_filesystems E gpfs target_filesystems) ;;
  let filesystems := keys fsd in
  log debug (found_filesystems filesystems) ;;;
  filesets <- call (Call_list_filesets gpfs) (list_filesets E gpfs) ;;
  log debug (found_filesets filesets) ;;;
  quota <- call (Call_list_quota gpfs) (list_quota E gpfs) ;;
  ret {| the_client := client; the_user_id_map := user_id_map; the_gpfs := gpfs;
         the_storage := st; the_filesystems := filesystems;
         the_filesets := filesets; the_quota := quota |}.

Definition no_locals : locals :=
  {| exceeding_filesets := ∅; exceeding_users := ∅; stats := ∅ |}.

Definition body_of (opts : Options) (c : scan) : string → locals → M locals :=
  loop_body opts (the_client c) (the_user_id_map c) (the_gpfs c) (the_storage c)
            (the_filesystems c) (the_filesets c) (the_quota c).

(** The block under [try:]. *)
Definition try_block (opts : Options) : M locals :=
  c <- prologue opts ;;
  for_loop (body_of opts c) (storage opts) no_locals.

(** ** [main] *)

Definition main : list event * termination :=
  match ExtendedSimpleOption E with
  | Raise e => ([], uncaught e)
  | Ok opts =>
      match try_block opts with
      | (t, Raise err) =>
          (t ++ [Log exception (critical_exception_caught err);
                 Critical "Script failed in a horrible way"],
           sys_exit NAGIOS_EXIT_CRITICAL)
      | (t, Ok l) =>
          (t ++ [Epilogue "quota check completed" (stats l)], returned)
      end
  end.

(** ** The loop body, case by case

    [loop_body] written as the decision tree it runs through: which
    lookup or call stops it, and what has been observed by then.  It is
    proved equal to [loop_body] below ([loop_body_view_eq]). *)

Definition fileset_report (storage_name : string) (ef : items) (n : nat) : list event :=
  if truthy ef then
    Log warning (filesets_exceeding storage_name n)
      :: map (fun '(e_fileset, e_quota) => Log warning (has_quota e_fileset e_quota)) ef
  else [Log debug (no_filesets_exceeding storage_name)].

Definition user_report (storage_name : string) (eu : items) : list event :=
  if truthy eu then
    Log warning (users_exceeding storage_name (length eu))
      :: map (fun '(e_user_id, e_quota) => Log warning (has_quota e_user_id e_quota)) eu
  else [Log debug (no_users_exceeding storage_name)].

(** The five entries one processed target writes, in the order of the
    source. *)
Definition record_stats (storage_name : string) (ef eu : items)
    (m : gmap string Z) : gmap string Z :=
  <[storage_name +:+ "_users" := if truthy eu then Z.of_nat (length eu) else 0]>
  (<[storage_name +:+ "_users_critical" := QUOTA_USERS_CRITICAL]>
  (<[storage_name +:+ "_users_warning" := QUOTA_USERS_WARNING]>
  (<[storage_name +:+ "_fileset" := if truthy ef then 1 else 0]>
  (<[storage_name +:+ "_fileset_critical" := QUOTA_FILESETS_CRITICAL]> m)))).

Definition processed (storage_name : string) (ef eu : items) (l : locals) : locals :=
  {| exceeding_filesets := <[storage_name := ef]> (exceeding_filesets l);
     exceeding_users := <[storage_name := eu]> (exceeding_users l);
     stats := record_stats storage_name ef eu (stats l) |}.

Definition loop_body_view (opts : Options) (client : Client) (user_id_map : UidMap)
    (gpfs : Gpfs) (st : gmap string Storage) (filesystems : list string)
    (filesets : Filesets) (quota : gmap string RawQuota)
    (storage_name : string) (l : locals) : M locals :=
  let t0 := [Log info (processing_quota storage_name)] in
  match st !! storage_name with
  | None => (t0, Raise (KeyError storage_name))
  | Some s =>
    let fs := filesystem s in
    let rf := data_replication_factor s in
    if negb (contains filesystems fs) then
      (t0 ++ [Log error (non_existent_filesystem fs)], Ok l)
    else if negb (contains (keys quota) fs) then
      (t0 ++ [Log error (no_quota_defined storage_name fs)], Ok l)
    else
    match quota !! fs with
    | None => (t0, Raise (KeyError fs))
    | Some raw =>
    let t1 := t0 ++ [Call_get_mmrepquota_maps raw storage_name fs filesets rf] in
    match get_mmrepquota_maps E raw storage_name fs filesets rf with
    | Raise e => (t1, Raise e)
    | Ok qsm =>
    match qsm !! "FILESET" with
    | None => (t1, Raise (KeyError "FILESET"))
    | Some qf =>
    let t2 := t1 ++ [Call_process_fileset_quota st gpfs storage_name fs qf client (dry_run opts)] in
    match process_fileset_quota E st gpfs storage_name fs qf client (dry_run opts) with
    | Raise e => (t2, Raise e)
    | Ok ef =>
    match qsm !! "USR" with
    | None => (t2, Raise (KeyError "USR"))
    | Some qu =>
    let t3 := t2 ++ [Call_process_user_quota st gpfs storage_name fs qu user_id_map client (dry_run opts)] in
    match process_user_quota E st gpfs storage_name fs qu user_id_map client (dry_run opts) with
    | Raise e => (t3, Raise e)
    | Ok eu =>
    let t4 := t3 ++ fileset_report storage_name ef (size (<[storage_name := ef]> (exceeding_filesets l)))
                 ++ [Call_notify_exceeding_filesets gpfs storage_name fs ef client (dry_run opts)] in
    match notify_exceeding_filesets E gpfs storage_name fs ef client (dry_run opts) with
    | Raise e => (t4, Raise e)
    | Ok _ =>
    let t5 := t4 ++ user_report storage_name eu
                 ++ [Call_notify_exceeding_users gpfs storage_name fs eu client (dry_run opts)] in
    match notify_exceeding_users E gpfs storage_name fs eu client (dry_run opts) with
    | Raise e => (t5, Raise e)
    | Ok _ => (t5, Ok (processed storage_name ef eu l))
    end end end end end end end end end.

(** A target that the loop passes over with [continue]. *)
Definition skipped (c : scan) (storage_name : string) : Prop :=
  ∃ s, the_storage c !! storage_name = Some s ∧
       (contains (the_filesystems c) (filesystem s) = false ∨
        contains (keys (the_quota c)) (filesystem s) = false).

End Main.

(** ** Reading a trace *)

(** The events only the loop body emits. *)
Definition loop_event (ev : event) : bool :=
  match ev with
  | Log _ (processing_quota _) | Log _ (non_existent_filesystem _)
  | Log _ (no_quota_defined _ _) | Log _ (filesets_exceeding _ _)
  | Log _ (no_filesets_exceeding _) | Log _ (users_exceeding _ _)
  | Log _ (no_users_exceeding _) | Log _ (has_quota _ _)
  | Call_get_mmrepquota_maps _ _ _ _ _
  | Call_process_fileset_quota _ _ _ _ _ _ _
  | Call_process_user_quota _ _ _ _ _ _ _ _
  | Call_notify_exceeding_filesets _ _ _ _ _ _
  | Call_notify_exceeding_users _ _ _ _ _ _ => true
  | _ => false
  end.

Definition is_list_quota (ev : event) : bool :=
  match ev with Call_list_quota _ => true | _ => false end.

(** The storage names whose iteration started, in order. *)
Definition started (t : list event) : list string :=
  omap (fun ev => match ev with
                  | Log info (processing_quota s) => Some s
                  | _ => None
                  end) t.

(** How often the raw quota report was asked for. *)
Definition fetches (t : list event) : nat := length (List.filter is_list_quota t).

(** What the Nagios reporter received through [opts.epilogue]. *)
Definition reported (t : list event) : list (gmap string Z) :=
  omap (fun ev => match ev with Epilogue _ m => Some m | _ => None end) t.

(** The same event with the dry-run argument blanked. *)
Definition without_dry_run (ev : event) : event :=
  match ev with
  | Call_process_fileset_quota st g s fs q c _ =>
      Call_process_fileset_quota st g s fs q c false
  | Call_process_user_quota st g s fs q u c _ =>
      Call_process_user_quota st g s fs q u c false
  | Call_notify_exceeding_filesets g s fs i c _ =>
      Call_notify_exceeding_filesets g s fs i c false
  | Call_notify_exceeding_users g s fs i c _ =>
      Call_notify_exceeding_users g s fs i c false
  | _ => ev
  end.

(** The arguments of the calls to the two notification functions, the
    dry-run flag included, in order. *)
Inductive notification : Type :=
| to_filesets (gpfs : Gpfs) (storage_name fs : string) (exceeding_items : items)
    (client : Client) (dry : bool)
| to_users (gpfs : Gpfs) (storage_name fs : string) (exceeding_items : items)
    (client : Client) (dry : bool).

Definition notifications (t : list event) : list notification :=
  omap (fun ev => match ev with
                  | Call_notify_exceeding_filesets g s fs i c d => Some (to_filesets g s fs i c d)
                  | Call_notify_exceeding_users g s fs i c d => Some (to_users g s fs i c d)
                  | _ => None
                  end) t.

Definition passed_flag (n : notification) : bool :=
  match n with
  | to_filesets _ _ _ _ _ d | to_users _ _ _ _ _ d => d
  end.

(** A call of [get_mmrepquota_maps] is given what the quota report [quota]
    holds for the filesystem it is called for. *)
Definition reads_snapshot (quota : gmap string RawQuota) (ev : event) : Prop :=
  match ev with
  | Call_get_mmrepquota_maps raw _ fs _ _ => quota !! fs = Some raw
  | _ => True
  end.

(** The same options with another dry-run flag. *)
Definition with_dry_run (d : bool) (o : Options) : Options :=
  {| storage := storage o; account_page_url := account_page_url o;
     access_token := access_token o; dry_run := d |}.

Definition with_options (o : Options) (E : Env) : Env :=
  {| ExtendedSimpleOption := Ok o;
     AccountpageClient := AccountpageClient E;
     map_uids_to_names := map_uids_to_names E;
     VscConfiguration := VscConfiguration E;
     LdapQuery := LdapQuery E;
     GpfsOperations := GpfsOperations E;
     VscStorage := VscStorage E;
     list_filesystems := list_filesystems E;
     list_filesets := list_filesets E;
     list_quota := list_quota E;
     get_mmrepquota_maps := get_mmrepquota_maps E;
     process_fileset_quota := process_fileset_quota E;
     process_user_quota := process_user_quota E;
     notify_exceeding_filesets := notify_exceeding_filesets E;
     notify_exceeding_users := notify_exceeding_users E |}.

End Dquota.

(** * The quota tools

    [vsc.filesystem.quota.tools] ([get_mmrepquota_maps],
    [process_user_quota], [process_fileset_quota] and the two [notify_]
    functions) is another module of the repository; [bin/dquota.py] imports it.
    [main] above takes these functions from [Env]; this module gives the
    reading of them that the specification describes. *)

Module Tools.

(** Modelled from the spec: the QuotaRecord of the data model (section 3),
    without the entity identifier and kind, which are the keys it is stored
    under; [vsc.filesystem.quota.tools] and its record classes are missing. *)
Record QuotaRecord : Type := {
  block_usage : Z;
  block_soft_limit : Z;
  block_hard_limit : Z;
  block_grace_expiry : option Z;
  file_usage : Z;
  file_soft_limit : Z;
  file_hard_limit : Z;
  file_grace_expiry : option Z
}.

(** Modelled from the spec: the exceed-kind of an ExceedingEntity
    (section 3); the tools module is missing. *)
Inductive exceed_kind : Type := block | file | both.

(** Modelled from the spec: "that timestamp is at or before the current
    evaluation time", false when the timestamp is absent (section 4.2);
    the tools module is missing. *)
Definition grace_expired (now : Z) (grace : option Z) : bool :=
  match grace with
  | Some t => t <=? now
  | None => false
  end.

(** Modelled from the spec: the rules of section 4.2 for one dimension,
    hard-limit breach or soft-limit breach with expired grace; the tools
    module is missing. *)
Definition dimension_exceeds (now usage soft hard : Z) (grace : option Z) : bool :=
  (hard <=? usage) || ((soft <=? usage) && grace_expired now grace).

(** Modelled from the spec: the rules are "evaluated independently for
    block and file dimensions" (section 4.2); the tools module is missing. *)
Definition exceeds (now : Z) (r : QuotaRecord) : option exceed_kind :=
  match dimension_exceeds now (block_usage r) (block_soft_limit r)
                          (block_hard_limit r) (block_grace_expiry r),
        dimension_exceeds now (file_usage r) (file_soft_limit r)
                          (file_hard_limit r) (file_grace_expiry r) with
  | true, true => Some both
  | true, false => Some block
  | false, true => Some file
  | false, false => None
  end.

(** Modelled from the spec: the Exceedance Classifier (section 4.2), which
    returns the exceeding entities "in the raw report's enumeration order";
    the tools module is missing. *)
Definition classify (now : Z) (records : list (string * QuotaRecord))
    : list (string * QuotaRecord * exceed_kind) :=
  omap (fun '(entity, r) => k ← exceeds now r; Some (entity, r, k)) records.

(** Modelled from the spec: "Effective block usage = reported raw block
    usage x replication factor", file counts unscaled (section 4.1); the
    tools module is missing. *)
Definition effective (replication_factor : Z) (r : QuotaRecord) : QuotaRecord :=
  {| block_usage := block_usage r * replication_factor;
     block_soft_limit := block_soft_limit r;
     block_hard_limit := block_hard_limit r;
     block_grace_expiry := block_grace_expiry r;
     file_usage := file_usage r;
     file_soft_limit := file_soft_limit r;
     file_hard_limit := file_hard_limit r;
     file_grace_expiry := file_grace_expiry r |}.

(** Modelled from the spec: the Record Normalizer (section 4.1) on the
    raw report of one filesystem, keyed by entity kind; kinds other than
    the two are ignored; the tools module is missing.  The keys are the
    ones [main] reads. *)
Definition normalize (raw : gmap string (list (string * QuotaRecord)))
    (replication_factor : Z) : gmap string (list (string * QuotaRecord)) :=
  <["USR" := prod_map id (effective replication_factor) <$> default [] (raw !! "USR")]>
  (<["FILESET" := prod_map id (effective replication_factor) <$> default [] (raw !! "FILESET")]> ∅).

(** Modelled from the spec: what [process_user_quota] and
    [process_fileset_quota] give back to [main], the exceeding entities
    as pairs; the tools module is missing. *)
Definition exceeding (now : Z) (records : list (string * QuotaRecord))
    : list (string * QuotaRecord) :=
  (fun '(entity, r, _) => (entity, r)) <$> classify now records.

(** Modelled from the spec: the Notification Dispatcher (section 4.4),
    "one notification per exceeding entity", none in dry-run mode; the
    tools module is missing. *)
Definition deliveries (dry : bool) (storage_name : string)
    (exceeding_items : list (string * QuotaRecord))
    : list (string * QuotaRecord * string) :=
  if dry then [] else (fun '(entity, r) => (entity, r, storage_name)) <$> exceeding_items.

(** The environment of [main] with these tools; the backend is given by
    the storage configuration, the mounted filesystems and the raw quota
    report, and [send] tells whether delivery works. *)
Definition env (now : Z) (opts : result Options) (st : gmap string Storage)
    (mounted : gmap string unit)
    (report : gmap string (gmap string (list (string * QuotaRecord))))
    (send : bool → result unit)
    : @Env unit unit unit unit unit unit
           (gmap string (list (string * QuotaRecord)))
           (list (string * QuotaRecord)) QuotaRecord :=
  {| ExtendedSimpleOption := opts;
     AccountpageClient := fun _ => Ok tt;
     map_uids_to_names := Ok tt;
     VscConfiguration := Ok tt;
     LdapQuery := fun _ => Ok tt;
     GpfsOperations := Ok tt;
     VscStorage := Ok st;
     list_filesystems := fun _ _ => Ok mounted;
     list_filesets := fun _ => Ok tt;
     list_quota := fun _ => Ok report;
     get_mmrepquota_maps := fun raw _ _ _ rf => Ok (normalize raw rf);
     process_fileset_quota := fun _ _ _ _ qm _ _ => Ok (exceeding now qm);
     process_user_quota := fun _ _ _ _ qm _ _ _ => Ok (exceeding now qm);
     notify_exceeding_filesets := fun _ _ _ _ _ dry => send dry;
     notify_exceeding_users := fun _ _ _ _ _ dry => send dry |}.

End Tools.

(** * The configuration input of the specification *)

(** Section 6 of the specification lists, as configuration input, the
    storage-target names, the account service URL and credential, and three
    severity thresholds.  The options of the script hold the first three;
    [options_of] is the part of the configuration that reaches [main]. *)
Record ConfigurationInput : Type := {
  storage_targets : list string;
  base_url : string;
  access_credential : option string;
  fileset_critical_count : Z;
  user_warning_count : Z;
  user_critical_count : Z
}.

Definition options_of (c : ConfigurationInput) (dry : bool) : Options :=
  {| storage := storage_targets c;
     account_page_url := base_url c;
     access_token := access_credential c;
     dry_run := dry |}.

(** * A small installation *)

Module Demo.
Import Tools.

Definition record (usage soft hard : Z) : QuotaRecord :=
  {| block_usage := usage; block_soft_limit := soft; block_hard_limit := hard;
     block_grace_expiry := None;
     file_usage := 10; file_soft_limit := 1000; file_hard_limit := 2000;
     file_grace_expiry := None |}.

Definition vsc_storage : gmap string Storage :=
  <["scratch" := {| filesystem := "gpfs_scratch"; data_replication_factor := 1 |}]>
  (<["data" := {| filesystem := "gpfs_data"; data_replication_factor := 2 |}]> ∅).

(** Only [gpfs_data] is mounted. *)
Definition mounted : gmap string unit := <["gpfs_data" := tt]> ∅.

Definition raw_users : list (string * QuotaRecord) :=
  [("2540001", record 100 150 200); ("2540002", record 60 150 200)].

Definition raw_filesets : list (string * QuotaRecord) :=
  [("gvo00001", record 500 300 400); ("gvo00002", record 450 300 400);
   ("gvo00003", record 10 300 400)].

Definition raw_data : gmap string (list (string * QuotaRecord)) :=
  <["USR" := raw_users]> (<["FILESET" := raw_filesets]> ∅).

Definition report : gmap string (gmap string (list (string * QuotaRecord))) :=
  <["gpfs_data" := raw_data]> ∅.

Definition delivery_works (dry : bool) : result unit := Ok tt.

(** Mail delivery is down; a dry run does not notice. *)
Definition delivery_down (dry : bool) : result unit :=
  if dry then Ok tt else Raise (Failure "connection refused").

Definition options (names : list string) (dry : bool) : Options :=
  {| storage := names; account_page_url := "https://account.vscentrum.be/django";
     access_token := Some "secret"; dry_run := dry |}.

Definition installation (names : list string) (dry : bool) :=
  env 1000 (Ok (options names dry)) vsc_storage mounted report delivery_works.

(** The same installation with mail delivery down. *)
Definition broken (names : list string) (dry : bool) :=
  env 1000 (Ok (options names dry)) vsc_storage mounted report delivery_down.

(** What the prologue leaves for the loop, in either. *)
Definition the_scan
    : @scan unit unit unit unit (gmap string (list (string * QuotaRecord))) :=
  {| the_client := tt; the_user_id_map := tt; the_gpfs := tt;
     the_storage := vsc_storage; the_filesystems := keys mounted;
     the_filesets := tt; the_quota := report |}.

(** What is observed of the prologue, [tfs] being the filesystems of the
    storage names given. *)
Definition prologue_events (tfs : list string)
    : list (@event unit unit unit unit unit
              (gmap string (list (string * QuotaRecord)))
              (list (string * QuotaRecord)) QuotaRecord) :=
  [Call_AccountpageClient (Some "secret"); Call_map_uids_to_names;
   Call_VscConfiguration; Call_LdapQuery tt; Call_GpfsOperations;
   Call_VscStorage; Call_list_filesystems tt tfs;
   Log debug (found_filesystems (keys mounted));
   Call_list_filesets tt; Log debug (found_filesets tt); Call_list_quota tt].

(** With the replication factor 2 of [data], two filesets and one user
    exceed. *)
Definition data_filesets : list (string * QuotaRecord) :=
  [("gvo00001", record 1000 300 400); ("gvo00002", record 900 300 400)].

Definition data_users : list (string * QuotaRecord) :=
  [("2540001", record 200 150 200)].

(** What is observed of the iteration for [data], the first to be
    processed. *)
Definition data_events (dry : bool)
    : list (@event unit unit unit unit unit
              (gmap string (list (string * QuotaRecord)))
              (list (string * QuotaRecord)) QuotaRecord) :=
  [Log info (processing_quota "data");
   Call_get_mmrepquota_maps raw_data "data" "gpfs_data" tt 2;
   Call_process_fileset_quota vsc_storage tt "data" "gpfs_data"
     (prod_map id (effective 2) <$> raw_filesets) tt dry;
   Call_process_user_quota vsc_storage tt "data" "gpfs_data"
     (prod_map id (effective 2) <$> raw_users) tt tt dry;
   Log warning (filesets_exceeding "data" 1);
   Log warning (has_quota "gvo00001" (record 1000 300 400));
   Log warning (has_quota "gvo00002" (record 900 300 400));
   Call_notify_exceeding_filesets tt "data" "gpfs_data" data_filesets tt dry;
   Log warning (users_exceeding "data" 1);
   Log warning (has_quota "2540001" (record 200 150 200));
   Call_notify_exceeding_users tt "data" "gpfs_data" data_users tt dry].

(** A configuration that asks for other thresholds than the script's. *)
Definition configuration : ConfigurationInput :=
  {| storage_targets := ["data"];
     base_url := "https://account.vscentrum.be/django";
     access_credential := Some "secret";
     fileset_critical_count := 3;
     user_warning_count := 5;
     user_critical_count := 10 |}.

(** The installation run from that configuration. *)
Definition configured (c : ConfigurationInput) (dry : bool) :=
  env 1000 (Ok (options_of c dry)) vsc_storage mounted report delivery_works.

End Demo.

(** * Stating the properties *)

(** What is appended to a storage name to form the keys of [stats]. *)
Definition counter_names : list string :=
  ["_fileset_critical"; "_fileset"; "_users_warning"; "_users_critical"; "_users"].

Section Statements.

Context {Client UidMap LdapConf Gpfs FsInfo Filesets RawQuota QuotaMap Quota : Type}.

(** The iteration for [storage_name] runs to its end: every lookup and
    call succeeds, [ef] and [eu] are the exceeding filesets and users
    found, and [t] is what is observed. *)
Definition processing
    (E : @Env Client UidMap LdapConf Gpfs FsInfo Filesets RawQuota QuotaMap Quota)
    (opts : Options) (c : @scan Client UidMap Gpfs Filesets RawQuota)
    (storage_name : string) (l : @locals Quota) (ef eu : @items Quota)
    (t : list (@event Client UidMap LdapConf Gpfs Filesets RawQuota QuotaMap Quota))
    : Prop :=
  ∃ s raw qsm qf qu,
    let fs := filesystem s in
    the_storage c !! storage_name = Some s ∧
    contains (the_filesystems c) fs = true ∧
    contains (keys (the_quota c)) fs = true ∧
    the_quota c !! fs = Some raw ∧
    get_mmrepquota_maps E raw storage_name fs (the_filesets c)
      (data_replication_factor s) = Ok qsm ∧
    qsm !! "FILESET" = Some qf ∧
    process_fileset_quota E (the_storage c) (the_gpfs c) storage_name fs qf
      (the_client c) (dry_run opts) = Ok ef ∧
    qsm !! "USR" = Some qu ∧
    process_user_quota E (the_storage c) (the_gpfs c) storage_name fs qu
      (the_user_id_map c) (the_client c) (dry_run opts) = Ok eu ∧
    notify_exceeding_filesets E (the_gpfs c) storage_name fs ef (the_client c)
      (dry_run opts) = Ok tt ∧
    notify_exceeding_users E (the_gpfs c) storage_name fs eu (the_client c)
      (dry_run opts) = Ok tt ∧
    t = Log info (processing_quota storage_name)
        :: Call_get_mmrepquota_maps raw storage_name fs (the_filesets c)
             (data_replication_factor s)
        :: Call_process_fileset_quota (the_storage c) (the_gpfs c) storage_name fs
             qf (the_client c) (dry_run opts)
        :: Call_process_user_quota (the_storage c) (the_gpfs c) storage_name fs
             qu (the_user_id_map c) (the_client c) (dry_run opts)
        :: fileset_report storage_name ef
             (size (<[storage_name := ef]> (exceeding_filesets l)))
        ++ Call_notify_exceeding_filesets (the_gpfs c) storage_name fs ef
             (the_client c) (dry_run opts)
        :: user_report storage_name eu
        ++ [Call_notify_exceeding_users (the_gpfs c) storage_name fs eu
              (the_client c) (dry_run opts)].

(** What the loop keeps true of its three dictionaries. *)
Record recorded (l : @locals Quota) : Prop := {
  recorded_users : ∀ s eu, exceeding_users l !! s = Some eu →
    stats l !! (s +:+ "_users") = Some (Z.of_nat (length eu)) ∧
    stats l !! (s +:+ "_users_warning") = Some QUOTA_USERS_WARNING ∧
    stats l !! (s +:+ "_users_critical") = Some QUOTA_USERS_CRITICAL;
  recorded_filesets : ∀ s ef, exceeding_filesets l !! s = Some ef →
    stats l !! (s +:+ "_fileset") = Some (if truthy ef then 1 else 0) ∧
    stats l !! (s +:+ "_fileset_critical") = Some QUOTA_FILESETS_CRITICAL;
  recorded_same : dom (exceeding_users l) = dom (exceeding_filesets l);
  recorded_keys : ∀ k, is_Some (stats l !! k) →
    ∃ s a, k = s +:+ a ∧ a ∈ counter_names ∧ s ∈ dom (exceeding_users l)
}.

(** The tools and the notification functions give the same result
    whatever the dry-run flag. *)
Record flag_blind
    (E : @Env Client UidMap LdapConf Gpfs FsInfo Filesets RawQuota QuotaMap Quota)
    : Prop := {
  blind_process_fileset_quota : ∀ st g s fs q c d,
    process_fileset_quota E st g s fs q c d = process_fileset_quota E st g s fs q c false;
  blind_process_user_quota : ∀ st g s fs q u c d,
    process_user_quota E st g s fs q u c d = process_user_quota E st g s fs q u c false;
  blind_notify_exceeding_filesets : ∀ g s fs i c d,
    notify_exceeding_filesets E g s fs i c d = notify_exceeding_filesets E g s fs i c false;
  blind_notify_exceeding_users : ∀ g s fs i c d,
    notify_exceeding_users E g s fs i c d = notify_exceeding_users E g s fs i c false
}.

End Statements.

Section Reading.

Context {Client UidMap LdapConf Gpfs FsInfo Filesets RawQuota QuotaMap Quota : Type}.

(** The error record with which the loop passes over [storage_name], if
    it does: the two tests of lines 104-110, in their order. *)
Definition skip_record (c : @scan Client UidMap Gpfs Filesets RawQuota)
    (storage_name : string) : option (@log_record Filesets Quota) :=
  match the_storage c !! storage_name with
  | Some s =>
      if negb (contains (the_filesystems c) (filesystem s)) then
        Some (non_existent_filesystem (filesystem s))
      else if negb (contains (keys (the_quota c)) (filesystem s)) then
        Some (no_quota_defined storage_name (filesystem s))
      else None
  | None => None
  end.

(** The records logged at error level, in order. *)
Definition error_records
    (t : list (@event Client UidMap LdapConf Gpfs Filesets RawQuota QuotaMap Quota))
    : list (@log_record Filesets Quota) :=
  omap (fun ev => match ev with Log error r => Some r | _ => None end) t.

(** What the Nagios reporter is told: [opts.epilogue] and [opts.critical]. *)
Definition is_report
    (ev : @event Client UidMap LdapConf Gpfs Filesets RawQuota QuotaMap Quota)
    : bool :=
  match ev with Epilogue _ _ | Critical _ => true | _ => false end.

(** The events of lines 78-93. *)
Definition prologue_event
    (ev : @event Client UidMap LdapConf Gpfs Filesets RawQuota QuotaMap Quota)
    : bool :=
  match ev with
  | Call_AccountpageClient _ | Call_map_uids_to_names | Call_VscConfiguration
  | Call_LdapQuery _ | Call_GpfsOperations | Call_VscStorage
  | Call_list_filesystems _ _ | Call_list_filesets _ | Call_list_quota _
  | Log debug (found_filesystems _) | Log debug (found_filesets _) => true
  | _ => false
  end.

(** What one processed target writes under the key [k] of [stats], if
    anything: the last assignment to [k] in lines 136-163. *)
Definition entry (storage_name : string) (ef eu : @items Quota) (k : string)
    : option Z :=
  if decide (k = storage_name +:+ "_users") then
    Some (if truthy eu then Z.of_nat (length eu) else 0)
  else if decide (k = storage_name +:+ "_users_critical") then
    Some QUOTA_USERS_CRITICAL
  else if decide (k = storage_name +:+ "_users_warning") then
    Some QUOTA_USERS_WARNING
  else if decide (k = storage_name +:+ "_fileset") then
    Some (if truthy ef then 1 else 0)
  else if decide (k = storage_name +:+ "_fileset_critical") then
    Some QUOTA_FILESETS_CRITICAL
  else None.

(** A call of one of the five tools is made for a storage name of [st],
    with the filesystem of that storage and, for [get_mmrepquota_maps],
    its replication factor. *)
Definition for_a_storage (st : gmap string Storage)
    (ev : @event Client UidMap LdapConf Gpfs Filesets RawQuota QuotaMap Quota)
    : Prop :=
  match ev with
  | Call_get_mmrepquota_maps _ s fs _ rf =>
      ∃ x, st !! s = Some x ∧ fs = filesystem x ∧ rf = data_replication_factor x
  | Call_process_fileset_quota _ _ s fs _ _ _
  | Call_process_user_quota _ _ s fs _ _ _ _
  | Call_notify_exceeding_filesets _ s fs _ _ _
  | Call_notify_exceeding_users _ s fs _ _ _ =>
      ∃ x, st !! s = Some x ∧ fs = filesystem x
  | _ => True
  end.

(** [main] in an environment whose [get_mmrepquota_maps] is [f]. *)
Definition with_maps
    (f : RawQuota → string → string → Filesets → Z → result (gmap string QuotaMap))
    (E : @Env Client UidMap LdapConf Gpfs FsInfo Filesets RawQuota QuotaMap Quota)
    : @Env Client UidMap LdapConf Gpfs FsInfo Filesets RawQuota QuotaMap Quota :=
  {| ExtendedSimpleOption := ExtendedSimpleOption E;
     AccountpageClient := AccountpageClient E;
     map_uids_to_names := map_uids_to_names E;
     VscConfiguration := VscConfiguration E;
     LdapQuery := LdapQuery E;
     GpfsOperations := GpfsOperations E;
     VscStorage := VscStorage E;
     list_filesystems := list_filesystems E;
     list_filesets := list_filesets E;
     list_quota := list_quota E;
     get_mmrepquota_maps := f;
     process_fileset_quota := process_fileset_quota E;
     process_user_quota := process_user_quota E;
     notify_exceeding_filesets := notify_exceeding_filesets E;
     notify_exceeding_users := notify_exceeding_users E |}.

End Reading.

(** * More of the installation *)

Module Cases.
Import Tools Demo.

(** A second storage, [home], on the filesystem of [data]. *)
Definition vsc_storage2 : gmap string Storage :=
  <["home" := {| filesystem := "gpfs_data"; data_replication_factor := 1 |}]>
  vsc_storage.

Definition the_scan2
    : @scan unit unit unit unit (gmap string (list (string * QuotaRecord))) :=
  {| the_client := tt; the_user_id_map := tt; the_gpfs := tt;
     the_storage := vsc_storage2; the_filesystems := keys mounted;
     the_filesets := tt; the_quota := report |}.

(** The quota maps cannot be built for [home]. *)
Definition home_fails (names : list string) (dry : bool) :=
  with_maps
    (fun raw s _ _ rf =>
       if String.eqb s "home" then Raise (Failure "mmrepquota failed")
       else Ok (normalize raw rf))
    (env 1000 (Ok (options names dry)) vsc_storage2 mounted report delivery_works).

(** Quota maps that lack the filesets, and quota maps that lack the users. *)
Definition users_only (names : list string) (dry : bool) :=
  with_maps (fun raw _ _ _ rf => Ok (delete "FILESET" (normalize raw rf)))
    (env 1000 (Ok (options names dry)) vsc_storage mounted report delivery_works).

Definition filesets_only (names : list string) (dry : bool) :=
  with_maps (fun raw _ _ _ rf => Ok (delete "USR" (normalize raw rf)))
    (env 1000 (Ok (options names dry)) vsc_storage mounted report delivery_works).

End Cases.

(** * Properties *)

Section Facts.

Context {Client UidMap LdapConf Gpfs FsInfo Filesets RawQuota QuotaMap Quota : Type}.

(** The definitions of the script, at the types of this section. *)
Local Abbreviation Env := (@Env Client UidMap LdapConf Gpfs FsInfo Filesets RawQuota QuotaMap Quota).
Local Abbreviation event := (@event Client UidMap LdapConf Gpfs Filesets RawQuota QuotaMap Quota).
Local Abbreviation scan := (@scan Client UidMap Gpfs Filesets RawQuota).
Local Abbreviation locals := (@locals Quota).
Local Abbreviation items := (@items Quota).
Local Abbreviation M := (@M Client UidMap LdapConf Gpfs Filesets RawQuota QuotaMap Quota).
Local Abbreviation ret := (@ret Client UidMap LdapConf Gpfs Filesets RawQuota QuotaMap Quota).
Local Abbreviation bind := (@bind Client UidMap LdapConf Gpfs Filesets RawQuota QuotaMap Quota).
Local Abbreviation log := (@log Client UidMap LdapConf Gpfs Filesets RawQuota QuotaMap Quota).
Local Abbreviation call := (@call Client UidMap LdapConf Gpfs Filesets RawQuota QuotaMap Quota).
Local Abbreviation getitem := (@getitem Client UidMap LdapConf Gpfs Filesets RawQuota QuotaMap Quota).
Local Abbreviation for_each := (@for_each Client UidMap LdapConf Gpfs Filesets RawQuota QuotaMap Quota).
Local Abbreviation comprehension := (@comprehension Client UidMap LdapConf Gpfs Filesets RawQuota QuotaMap Quota).
Local Abbreviation for_loop := (@for_loop Client UidMap LdapConf Gpfs Filesets RawQuota QuotaMap Quota).
Local Abbreviation fileset_report := (@fileset_report Client UidMap LdapConf Gpfs Filesets RawQuota QuotaMap Quota).
Local Abbreviation user_report := (@user_report Client UidMap LdapConf Gpfs Filesets RawQuota QuotaMap Quota).
Local Abbreviation started := (@started Client UidMap LdapConf Gpfs Filesets RawQuota QuotaMap Quota).
Local Abbreviation reported := (@reported Client UidMap LdapConf Gpfs Filesets RawQuota QuotaMap Quota).
Local Abbreviation notifications := (@notifications Client UidMap LdapConf Gpfs Filesets RawQuota QuotaMap Quota).
Local Abbreviation loop_event := (@loop_event Client UidMap LdapConf Gpfs Filesets RawQuota QuotaMap Quota).
Local Abbreviation is_list_quota := (@is_list_quota Client UidMap LdapConf Gpfs Filesets RawQuota QuotaMap Quota).
Local Abbreviation without_dry_run := (@without_dry_run Client UidMap LdapConf Gpfs Filesets RawQuota QuotaMap Quota).
Local Abbreviation fetches := (@fetches Client UidMap LdapConf Gpfs Filesets RawQuota QuotaMap Quota).
Local Abbreviation reads_snapshot := (@reads_snapshot Client UidMap LdapConf Gpfs Filesets RawQuota QuotaMap Quota).
Local Abbreviation passed_flag := (@passed_flag Client Gpfs Quota).
Local Abbreviation skip_record := (@skip_record Client UidMap Gpfs Filesets RawQuota Quota).
Local Abbreviation entry := (@entry Quota).
Local Abbreviation for_a_storage := (@for_a_storage Client UidMap LdapConf Gpfs Filesets RawQuota QuotaMap Quota).
Local Abbreviation error_records := (@error_records Client UidMap LdapConf Gpfs Filesets RawQuota QuotaMap Quota).
Local Abbreviation is_report := (@is_report Client UidMap LdapConf Gpfs Filesets RawQuota QuotaMap Quota).
Local Abbreviation prologue_event := (@prologue_event Client UidMap LdapConf Gpfs Filesets RawQuota QuotaMap Quota).

Implicit Types (E : Env) (t : list event) (l : locals) (opts : Options) (ef eu : items).

Lemma for_each_has_quota lv (xs : items) :
  for_each (λ '(name, quota), log lv (has_quota name quota)) xs
  = (map (λ '(name, quota), Log lv (has_quota name quota)) xs, Ok tt).
Proof.
  induction xs as [|[name quota] xs IH]; [done|].
  simpl. by rewrite IH.
Qed.

Lemma loop_body_view_eq E opts client uid gpfs st fss fsets quota s l :
  loop_body E opts client uid gpfs st fss fsets quota s l
  = loop_body_view E opts client uid gpfs st fss fsets quota s l.
Proof.
  unfold loop_body, loop_body_view, getitem.
  destruct (st !! s) as [x|]; [|done]. simpl.
  destruct (contains fss (filesystem x)); simpl; [|done].
  destruct (contains (keys quota) (filesystem x)); simpl; [|done].
  destruct (quota !! filesystem x) as [raw|]; [|done]. simpl.
  destruct (get_mmrepquota_maps E _ _ _ _ _) as [qsm|e]; [|done]. simpl.
  destruct (qsm !! "FILESET") as [qf|]; [|done]. simpl.
  destruct (process_fileset_quota E _ _ _ _ _ _ _) as [ef|e]; [|done]. simpl.
  destruct (qsm !! "USR") as [qu|]; [|done]. simpl.
  destruct (process_user_quota E _ _ _ _ _ _ _ _) as [eu|e]; [|done]. simpl.
  rewrite !lookup_insert_eq. simpl.
  rewrite !for_each_has_quota.
  unfold fileset_report, user_report, processed, record_stats.
  destruct (notify_exceeding_filesets E gpfs s (filesystem x) ef client (dry_run opts)) as [[]|e0],
           (notify_exceeding_users E gpfs s (filesystem x) eu client (dry_run opts)) as [[]|e1];
    destruct (truthy ef), (truthy eu); simpl; rewrite <- ?app_assoc; done.
Qed.

Lemma for_loop_app (body : string → locals → M locals) xs ys l :
  for_loop body (xs ++ ys) l
  = bind (for_loop body xs l) (λ l', for_loop body ys l').
Proof.
  revert l. induction xs as [|x xs IH]; intros l; simpl.
  - by destruct (for_loop body ys l).
  - destruct (body x l) as [t [l'|e]]; simpl; [|done].
    rewrite IH. destruct (for_loop body xs l') as [t' [l''|e]]; simpl; [|done].
    destruct (for_loop body ys l''). by rewrite app_assoc.
Qed.

(** ** One iteration *)

Lemma body_processing E opts (c : scan) s l ef eu t :
  processing E opts c s l ef eu t →
  body_of E opts c s l = (t, Ok (processed s ef eu l)).
Proof.
  intros (x & raw & qsm & qf & qu & Hx & Hfs & Hq & Hraw & Hmaps & Hqf & Hef
          & Hqu & Heu & Hnf & Hnu & ->).
  unfold body_of. rewrite loop_body_view_eq. unfold loop_body_view.
  rewrite Hx. simpl. rewrite Hfs, Hq. simpl.
  rewrite Hraw, Hmaps, Hqf, Hef, Hqu, Heu, Hnf, Hnu.
  simpl. by rewrite <- !app_assoc.
Qed.

Lemma body_ok_inv E opts (c : scan) s l t l' :
  body_of E opts c s l = (t, Ok l') →
  (skipped c s ∧ l' = l ∧
   ∃ r, t = [Log info (processing_quota s); Log error r])
  ∨ (¬ skipped c s ∧
     ∃ ef eu, processing E opts c s l ef eu t ∧ l' = processed s ef eu l).
Proof.
  unfold body_of. rewrite loop_body_view_eq. unfold loop_body_view.
  destruct (the_storage c !! s) as [x|] eqn:Hx; [|done].
  destruct (contains (the_filesystems c) (filesystem x)) eqn:Hfs; simpl.
  2:{ intros [= <- <-]. left. split; [|eauto]. exists x. eauto. }
  destruct (contains (keys (the_quota c)) (filesystem x)) eqn:Hq; simpl.
  2:{ intros [= <- <-]. left. split; [|eauto]. exists x. eauto. }
  destruct (the_quota c !! filesystem x) as [raw|] eqn:Hraw; [|done].
  destruct (get_mmrepquota_maps E _ _ _ _ _) as [qsm|] eqn:Hmaps; [|done].
  destruct (qsm !! "FILESET") as [qf|] eqn:Hqf; [|done].
  destruct (process_fileset_quota E _ _ _ _ _ _ _) as [ef|] eqn:Hef; [|done].
  destruct (qsm !! "USR") as [qu|] eqn:Hqu; [|done].
  destruct (process_user_quota E _ _ _ _ _ _ _ _) as [eu|] eqn:Heu; [|done].
  destruct (notify_exceeding_filesets E _ _ _ _ _ _) as [[]|] eqn:Hnf; [|done].
  destruct (notify_exceeding_users E _ _ _ _ _ _) as [[]|] eqn:Hnu; [|done].
  intros [= <- <-]. right. split.
  - intros (x' & Hx' & Hno). rewrite Hx in Hx'. injection Hx' as <-.
    destruct Hno; congruence.
  - exists ef, eu. split; [|done].
    exists x, raw, qsm, qf, qu. simpl.
    repeat (split; [done|]). by rewrite <- !app_assoc.
Qed.

(** ** Keys of [stats] *)

Lemma list_ascii_of_string_app s1 s2 :
  String.list_ascii_of_string (s1 +:+ s2)
  = String.list_ascii_of_string s1 ++ String.list_ascii_of_string s2.
Proof.
  induction s1 as [|a s1 IH]; [done|].
  change (a :: String.list_ascii_of_string (s1 +:+ s2)
          = a :: (String.list_ascii_of_string s1 ++ String.list_ascii_of_string s2)).
  by rewrite IH.
Qed.

Lemma list_ascii_of_string_inj s1 s2 :
  String.list_ascii_of_string s1 = String.list_ascii_of_string s2 → s1 = s2.
Proof.
  intros H. rewrite <- (String.string_of_list_ascii_of_string s1),
    <- (String.string_of_list_ascii_of_string s2). by rewrite H.
Qed.

(** Two keys are equal only if they belong to the same storage name and
    the same counter: no counter name is the end of another one. *)
Lemma key_inj s1 s2 a b :
  a ∈ counter_names → b ∈ counter_names →
  s1 +:+ a = s2 +:+ b → s1 = s2 ∧ a = b.
Proof.
  intros Ha Hb Heq.
  apply (f_equal String.list_ascii_of_string) in Heq.
  rewrite !list_ascii_of_string_app in Heq.
  assert (String.list_ascii_of_string a `suffix_of` String.list_ascii_of_string b
          ∨ String.list_ascii_of_string b `suffix_of` String.list_ascii_of_string a) as Hsuf.
  { apply (suffix_weak_total _ _ (String.list_ascii_of_string s1 ++ String.list_ascii_of_string a)).
    - by apply suffix_app_r.
    - rewrite Heq. by apply suffix_app_r. }
  assert (a = b) as ->.
  { unfold counter_names in Ha, Hb.
    repeat (apply elem_of_cons in Ha as [->|Ha]);
      try (by apply elem_of_nil in Ha);
      repeat (apply elem_of_cons in Hb as [->|Hb]);
      try (by apply elem_of_nil in Hb); try done;
      exfalso; destruct Hsuf as [H|H];
      revert H; apply (bool_decide_eq_false_1 _); vm_compute; reflexivity. }
  split; [|done].
  apply app_inj_2 in Heq as [Heq _]; [|done].
  by apply list_ascii_of_string_inj.
Qed.

Ltac counter_name := unfold counter_names; solve [repeat constructor].

Lemma counter_name_ne s a b : a ≠ b → s +:+ a ≠ s +:+ b.
Proof. intros Hne Heq. by apply (inj (String.app s)) in Heq. Qed.

Lemma truthy_length (xs : items) :
  (if truthy xs then Z.of_nat (length xs) else 0) = Z.of_nat (length xs).
Proof. by destruct xs. Qed.

(** The entries of another storage name are left alone. *)
Lemma record_stats_other s ef eu (m : gmap string Z) s' a :
  s' ≠ s → a ∈ counter_names →
  record_stats s ef eu m !! (s' +:+ a) = m !! (s' +:+ a).
Proof.
  intros Hne Ha. unfold record_stats.
  rewrite !lookup_insert_ne; [done|..];
    intros Heq; apply key_inj in Heq as [? _]; try done; counter_name.
Qed.

Lemma record_stats_users s ef eu (m : gmap string Z) :
  record_stats s ef eu m !! (s +:+ "_users") = Some (Z.of_nat (length eu)).
Proof. unfold record_stats. by rewrite lookup_insert_eq, truthy_length. Qed.

Lemma record_stats_users_critical s ef eu (m : gmap string Z) :
  record_stats s ef eu m !! (s +:+ "_users_critical") = Some QUOTA_USERS_CRITICAL.
Proof.
  unfold record_stats.
  rewrite lookup_insert_ne by (by apply counter_name_ne).
  by rewrite lookup_insert_eq.
Qed.

Lemma record_stats_users_warning s ef eu (m : gmap string Z) :
  record_stats s ef eu m !! (s +:+ "_users_warning") = Some QUOTA_USERS_WARNING.
Proof.
  unfold record_stats.
  rewrite !lookup_insert_ne by (by apply counter_name_ne).
  by rewrite lookup_insert_eq.
Qed.

Lemma record_stats_fileset s ef eu (m : gmap string Z) :
  record_stats s ef eu m !! (s +:+ "_fileset") = Some (if truthy ef then 1 else 0).
Proof.
  unfold record_stats.
  rewrite !lookup_insert_ne by (by apply counter_name_ne).
  by rewrite lookup_insert_eq.
Qed.

Lemma record_stats_fileset_critical s ef eu (m : gmap string Z) :
  record_stats s ef eu m !! (s +:+ "_fileset_critical") = Some QUOTA_FILESETS_CRITICAL.
Proof.
  unfold record_stats.
  rewrite !lookup_insert_ne by (by apply counter_name_ne).
  by rewrite lookup_insert_eq.
Qed.

Lemma record_stats_keys s ef eu (m : gmap string Z) k :
  is_Some (record_stats s ef eu m !! k) →
  (∃ a, k = s +:+ a ∧ a ∈ counter_names) ∨ is_Some (m !! k).
Proof.
  unfold record_stats. rewrite !lookup_insert_is_Some.
  intros H.
  repeat (destruct H as [<- | [_ H]]; [left; eexists; split; [done|counter_name]|]).
  by right.
Qed.

(** ** The loop keeps [recorded] *)

Lemma recorded_no_locals : recorded (@no_locals Quota).
Proof.
  split; simpl; try done.
  intros k [v Hv]. by rewrite lookup_empty in Hv.
Qed.

Lemma recorded_processed s ef eu l :
  recorded l → recorded (processed s ef eu l).
Proof.
  intros [Hu Hf Hd Hk]. split; simpl.
  - intros s' eu'. destruct (decide (s' = s)) as [->|Hne].
    + rewrite lookup_insert_eq. intros [= <-].
      by rewrite record_stats_users, record_stats_users_warning,
        record_stats_users_critical.
    + rewrite lookup_insert_ne by done. intros H%Hu.
      rewrite !record_stats_other; first [done | counter_name].
  - intros s' ef'. destruct (decide (s' = s)) as [->|Hne].
    + rewrite lookup_insert_eq. intros [= <-].
      by rewrite record_stats_fileset, record_stats_fileset_critical.
    + rewrite lookup_insert_ne by done. intros H%Hf.
      rewrite !record_stats_other; first [done | counter_name].
  - rewrite !dom_insert_L. by rewrite Hd.
  - intros k [(a & -> & Ha)|H]%record_stats_keys.
    + exists s, a. rewrite dom_insert_L, elem_of_union, elem_of_singleton. auto.
    + destruct (Hk k H) as (s' & a & -> & Ha & Hs').
      exists s', a. rewrite dom_insert_L, elem_of_union. auto.
Qed.

Lemma for_loop_recorded E opts (c : scan) names l t l' :
  recorded l →
  for_loop (body_of E opts c) names l = (t, Ok l') →
  recorded l'.
Proof.
  revert l t. induction names as [|s names IH]; intros l t Hl; simpl.
  - by intros [= <- <-].
  - destruct (body_of E opts c s l) as [t1 [l1|e]] eqn:Hbody; simpl; [|done].
    destruct (for_loop _ names l1) as [t2 r] eqn:Hrest.
    intros [= <- ->].
    apply body_ok_inv in Hbody as [(_ & -> & _)|(_ & ef & eu & _ & ->)];
      eauto using recorded_processed.
Qed.

(** The targets with an entry are the ones the loop did not skip. *)
Lemma for_loop_dom E opts (c : scan) names l t l' :
  for_loop (body_of E opts c) names l = (t, Ok l') →
  ∀ s, s ∈ dom (exceeding_users l') ↔
       s ∈ dom (exceeding_users l) ∨ (s ∈ names ∧ ¬ skipped c s).
Proof.
  revert l t. induction names as [|s names IH]; intros l t; simpl.
  - intros [= <- <-] s. rewrite elem_of_nil. tauto.
  - destruct (body_of E opts c s l) as [t1 [l1|e]] eqn:Hbody; simpl; [|done].
    destruct (for_loop _ names l1) as [t2 r] eqn:Hrest.
    intros [= <- ->] s'. rewrite (IH _ _ Hrest s').
    apply body_ok_inv in Hbody as [(Hs & -> & _)|(Hs & ef & eu & _ & ->)].
    + rewrite elem_of_cons. naive_solver.
    + simpl. rewrite dom_insert_L, elem_of_cons, elem_of_union, elem_of_singleton.
      naive_solver.
Qed.

(** ** What a trace of the loop looks like *)

Lemma started_app t t' : started (t ++ t') = started t ++ started t'.
Proof. apply omap_app. Qed.

Lemma reported_app t t' : reported (t ++ t') = reported t ++ reported t'.
Proof. apply omap_app. Qed.

Lemma loop_event_reported t :
  Forall (λ ev, loop_event ev = true) t → reported t = [].
Proof.
  induction 1 as [|ev t Hev _ IH]; [done|].
  destruct ev; try done; simpl; by rewrite IH.
Qed.

Lemma fileset_report_loop s ef n :
  Forall (λ ev : event, loop_event ev = true) (fileset_report s ef n)
  ∧ started (fileset_report s ef n) = [].
Proof.
  unfold fileset_report. destruct (truthy ef); [|by repeat constructor].
  split; [constructor; [done|]|simpl]; induction ef as [|[]]; simpl; auto.
Qed.

Lemma user_report_loop s eu :
  Forall (λ ev : event, loop_event ev = true) (user_report s eu)
  ∧ started (user_report s eu) = [].
Proof.
  unfold user_report. destruct (truthy eu); [|by repeat constructor].
  split; [constructor; [done|]|simpl]; induction eu as [|[]]; simpl; auto.
Qed.

(** Whatever its outcome, an iteration emits its info record once and
    nothing but loop events. *)
Lemma body_trace E opts (c : scan) s l t r :
  body_of E opts c s l = (t, r) →
  started t = [s] ∧ Forall (λ ev, loop_event ev = true) t.
Proof.
  unfold body_of. rewrite loop_body_view_eq. unfold loop_body_view.
  pose proof (fileset_report_loop s) as Hf.
  pose proof (user_report_loop s) as Hu.
  unfold started in *.
  repeat case_match; intros [= <- <-]; (split;
    [ cbn -[fileset_report user_report];
      rewrite ?omap_app, ?(proj2 (Hf _ _)), ?(proj2 (Hu _)); done
    | repeat (apply Forall_cons; split; [reflexivity|]);
      rewrite ?Forall_app; repeat split;
      first [ apply Hf | apply Hu | apply Forall_nil_2
            | by apply Forall_singleton ] ]).
Qed.

Lemma for_loop_trace E opts (c : scan) names l t r :
  for_loop (body_of E opts c) names l = (t, r) →
  Forall (λ ev, loop_event ev = true) t
  ∧ started t `prefix_of` names
  ∧ (∀ l', r = Ok l' → started t = names).
Proof.
  revert l t r. induction names as [|s names IH]; intros l t r; simpl.
  - intros [= <- <-]. by repeat constructor.
  - destruct (body_of E opts c s l) as [t1 r1] eqn:Hbody.
    destruct (body_trace _ _ _ _ _ _ _ Hbody) as (Hst & Hloop).
    destruct r1 as [l1|e]; simpl.
    + destruct (for_loop _ names l1) as [t2 r2] eqn:Hrest.
      destruct (IH _ _ _ Hrest) as (Hl2 & Hp2 & Hok2).
      intros [= <- <-]. rewrite started_app, Hst. simpl.
      split; [|split].
      * by apply Forall_app.
      * by apply prefix_cons.
      * intros l' ->. f_equal. eauto.
    + intros [= <- <-]. rewrite Hst. split; [|split].
      * done.
      * apply prefix_cons, prefix_nil.
      * done.
Qed.

(** A loop that raises stops in the iteration that raises. *)
Lemma for_loop_raise_inv (body : string → locals → M locals) names l t e :
  for_loop body names l = (t, Raise e) →
  ∃ done_names s rest t1 l1 t2,
    names = done_names ++ s :: rest
    ∧ for_loop body done_names l = (t1, Ok l1)
    ∧ body s l1 = (t2, Raise e)
    ∧ t = t1 ++ t2.
Proof.
  revert l t. induction names as [|s names IH]; intros l t; simpl; [done|].
  destruct (body s l) as [t1 [l1|e1]] eqn:Hbody; simpl.
  - destruct (for_loop body names l1) as [t2 r2] eqn:Hrest.
    intros [= <- ->].
    destruct (IH _ _ Hrest) as (dn & s' & rest & ta & la & tb & -> & Hdn & Hs' & ->).
    exists (s :: dn), s', rest, (t1 ++ ta), la, tb. simpl.
    rewrite Hbody. simpl. rewrite Hdn. by rewrite app_assoc.
  - intros [= <- <-]. by exists [], s, names, [], l, t1.
Qed.

(** ** Before the loop *)

Lemma comprehension_trace (st : gmap string Storage) names :
  (comprehension (λ s, bind (getitem st s) (λ x, ret (filesystem x))) names).1 = [].
Proof.
  induction names as [|s names IH]; [done|]. simpl. unfold getitem at 1.
  destruct (st !! s) as [x|]; [|done]. simpl.
  destruct (comprehension _ names) as [tc [tfs|e]]; simpl in *; by subst.
Qed.

Lemma comprehension_unknown (st : gmap string Storage) names s :
  s ∈ names → st !! s = None →
  ∃ s', comprehension (λ s, bind (getitem st s) (λ x, ret (filesystem x))) names
        = ([], Raise (KeyError s'))
        ∧ s' ∈ names ∧ st !! s' = None.
Proof.
  intros Hin Hs. induction names as [|s0 names IH]; [by apply elem_of_nil in Hin|].
  simpl. unfold getitem at 1.
  destruct (st !! s0) as [x|] eqn:Hs0; simpl.
  - apply elem_of_cons in Hin as [->|Hin]; [congruence|].
    destruct (IH Hin) as (s' & -> & Hs' & Hnone). simpl.
    exists s'. rewrite elem_of_cons. auto.
  - exists s0. rewrite elem_of_cons. auto.
Qed.

Lemma comprehension_known (st : gmap string Storage) names t tfs :
  comprehension (λ s, bind (getitem st s) (λ x, ret (filesystem x))) names
  = (t, Ok tfs) →
  ∀ s, s ∈ names → is_Some (st !! s).
Proof.
  revert t tfs. induction names as [|s0 names IH]; intros t tfs; simpl.
  - intros _ s Hs. by apply elem_of_nil in Hs.
  - unfold getitem at 1. destruct (st !! s0) as [x|] eqn:Hs0; simpl; [|done].
    destruct (comprehension _ names) as [tc [tfs'|e]] eqn:Hc; simpl; [|done].
    intros _ s [->|Hs]%elem_of_cons; eauto.
Qed.

Lemma prologue_ok_inv E opts t (c : scan) :
  prologue E opts = (t, Ok c) →
  ∃ cfg tfs fsd,
    AccountpageClient E (access_token opts) = Ok (the_client c)
    ∧ map_uids_to_names E = Ok (the_user_id_map c)
    ∧ VscConfiguration E = Ok cfg
    ∧ LdapQuery E cfg = Ok tt
    ∧ GpfsOperations E = Ok (the_gpfs c)
    ∧ VscStorage E = Ok (the_storage c)
    ∧ (∀ s, s ∈ storage opts → is_Some (the_storage c !! s))
    ∧ list_filesystems E (the_gpfs c) tfs = Ok fsd
    ∧ the_filesystems c = keys fsd
    ∧ list_filesets E (the_gpfs c) = Ok (the_filesets c)
    ∧ list_quota E (the_gpfs c) = Ok (the_quota c)
    ∧ t = [Call_AccountpageClient (access_token opts); Call_map_uids_to_names;
           Call_VscConfiguration; Call_LdapQuery cfg; Call_GpfsOperations;
           Call_VscStorage; Call_list_filesystems (the_gpfs c) tfs;
           Log debug (found_filesystems (the_filesystems c));
           Call_list_filesets (the_gpfs c);
           Log debug (found_filesets (the_filesets c));
           Call_list_quota (the_gpfs c)].
Proof.
  unfold prologue.
  destruct (AccountpageClient E _) as [client|] eqn:H1; simpl; [|done].
  destruct (map_uids_to_names E) as [uid|] eqn:H2; simpl; [|done].
  destruct (VscConfiguration E) as [cfg|] eqn:H3; simpl; [|done].
  destruct (LdapQuery E cfg) as [[]|] eqn:H4; simpl; [|done].
  destruct (GpfsOperations E) as [gpfs|] eqn:H5; simpl; [|done].
  destruct (VscStorage E) as [st|] eqn:H6; simpl; [|done].
  pose proof (comprehension_trace st (storage opts)) as Htc.
  pose proof (comprehension_known st (storage opts)) as Hknown.
  destruct (comprehension _ (storage opts)) as [tc [tfs|]]; simpl in *; [|done].
  subst tc. simpl.
  destruct (list_filesystems E gpfs tfs) as [fsd|] eqn:H7; simpl; [|done].
  destruct (list_filesets E gpfs) as [fsets|] eqn:H8; simpl; [|done].
  destruct (list_quota E gpfs) as [quota|] eqn:H9; simpl; [|done].
  intros [= <- <-]. simpl. exists cfg, tfs, fsd.
  repeat (split; [by eauto|]). done.
Qed.

Ltac all_events :=
  repeat (apply Forall_cons; split; [reflexivity|]); by apply Forall_nil_2.

(** Whatever its outcome, the prologue emits no loop event and asks for
    the quota report at most once. *)
Lemma prologue_trace E opts t (r : result scan) :
  prologue E opts = (t, r) →
  Forall (λ ev, loop_event ev = false) t ∧ started t = [] ∧ reported t = []
  ∧ (fetches t ≤ 1)%nat.
Proof.
  unfold prologue.
  assert (∀ t' (r' : result scan), (t', r') = (t, r) →
            Forall (λ ev, loop_event ev = false) t' → started t' = [] →
            reported t' = [] → (fetches t' ≤ 1)%nat →
            Forall (λ ev, loop_event ev = false) t ∧ started t = []
            ∧ reported t = [] ∧ (fetches t ≤ 1)%nat) as Hend.
  { by intros t' r' [= <- <-]. }
  destruct (AccountpageClient E _) as [client|]; simpl;
    [|intros H; eapply Hend; [done|all_events|done..|unfold fetches; simpl; lia]].
  destruct (map_uids_to_names E) as [uid|]; simpl;
    [|intros H; eapply Hend; [done|all_events|done..|unfold fetches; simpl; lia]].
  destruct (VscConfiguration E) as [cfg|]; simpl;
    [|intros H; eapply Hend; [done|all_events|done..|unfold fetches; simpl; lia]].
  destruct (LdapQuery E cfg) as [[]|]; simpl;
    [|intros H; eapply Hend; [done|all_events|done..|unfold fetches; simpl; lia]].
  destruct (GpfsOperations E) as [gpfs|]; simpl;
    [|intros H; eapply Hend; [done|all_events|done..|unfold fetches; simpl; lia]].
  destruct (VscStorage E) as [st|]; simpl;
    [|intros H; eapply Hend; [done|all_events|done..|unfold fetches; simpl; lia]].
  pose proof (comprehension_trace st (storage opts)) as Htc.
  destruct (comprehension _ (storage opts)) as [tc [tfs|]]; simpl in *; subst tc;
    [|intros H; eapply Hend; [done|all_events|done..|unfold fetches; simpl; lia]].
  simpl.
  destruct (list_filesystems E gpfs tfs) as [fsd|]; simpl;
    [|intros H; eapply Hend; [done|all_events|done..|unfold fetches; simpl; lia]].
  destruct (list_filesets E gpfs) as [fsets|]; simpl;
    [|intros H; eapply Hend; [done|all_events|done..|unfold fetches; simpl; lia]].
  destruct (list_quota E gpfs) as [quota|]; simpl;
    intros H; (eapply Hend; [done|all_events|done..|unfold fetches; simpl; lia]).
Qed.

(** ** [main], unfolded *)

Lemma try_block_loop E opts t0 (c : scan) :
  prologue E opts = (t0, Ok c) →
  try_block E opts
  = (t0 ++ (for_loop (body_of E opts c) (storage opts) no_locals).1,
     (for_loop (body_of E opts c) (storage opts) no_locals).2).
Proof.
  intros H. unfold try_block. rewrite H. simpl.
  by destruct (for_loop _ _ _).
Qed.

Lemma main_completed E opts t l :
  ExtendedSimpleOption E = Ok opts →
  try_block E opts = (t, Ok l) →
  main E = (t ++ [Epilogue "quota check completed" (stats l)], returned).
Proof. intros H1 H2. unfold main. by rewrite H1, H2. Qed.

Lemma main_failed E opts t err :
  ExtendedSimpleOption E = Ok opts →
  try_block E opts = (t, Raise err) →
  main E = (t ++ [Log exception (critical_exception_caught err);
                  Critical "Script failed in a horrible way"],
            sys_exit NAGIOS_EXIT_CRITICAL).
Proof. intros H1 H2. unfold main. by rewrite H1, H2. Qed.

Lemma fetches_app t t' : fetches (t ++ t') = (fetches t + fetches t')%nat.
Proof. unfold fetches. by rewrite List.filter_app, length_app. Qed.

Lemma loop_event_fetches t :
  Forall (λ ev, loop_event ev = true) t → fetches t = 0%nat.
Proof.
  unfold fetches. induction 1 as [|ev t Hev _ IH]; [done|].
  by destruct ev.
Qed.

(** The block under [try:] reports nothing to Nagios itself, asks for the
    quota report at most once, and starts targets in the order of the
    options. *)
Lemma try_block_trace E opts t (r : result locals) :
  try_block E opts = (t, r) →
  reported t = [] ∧ (fetches t ≤ 1)%nat ∧ started t `prefix_of` storage opts.
Proof.
  unfold try_block.
  destruct (prologue E opts) as [t0 [c|e]] eqn:Hpro; simpl;
    destruct (prologue_trace _ _ _ _ Hpro) as (_ & Hst & Hrep & Hfetch).
  - destruct (for_loop _ (storage opts) no_locals) as [t1 r1] eqn:Hloop.
    destruct (for_loop_trace E opts c _ _ _ _ Hloop) as (Hev & Hpre & _).
    intros [= <- <-].
    rewrite reported_app, started_app, fetches_app, Hrep, Hst,
      (loop_event_reported _ Hev), (loop_event_fetches _ Hev).
    split; [done|]. split; [lia|done].
  - intros [= <- <-]. rewrite Hst. split; [done|]. split; [done|].
    apply prefix_nil.
Qed.

(** The entries of a target that was not skipped, once the loop is over. *)
Lemma completed_entries E opts t0 (c : scan) t l s :
  prologue E opts = (t0, Ok c) →
  try_block E opts = (t, Ok l) →
  s ∈ storage opts → ¬ skipped c s →
  ∃ ef eu,
    exceeding_filesets l !! s = Some ef
    ∧ exceeding_users l !! s = Some eu
    ∧ stats l !! (s +:+ "_fileset") = Some (if truthy ef then 1 else 0)
    ∧ stats l !! (s +:+ "_fileset_critical") = Some QUOTA_FILESETS_CRITICAL
    ∧ stats l !! (s +:+ "_users") = Some (Z.of_nat (length eu))
    ∧ stats l !! (s +:+ "_users_warning") = Some QUOTA_USERS_WARNING
    ∧ stats l !! (s +:+ "_users_critical") = Some QUOTA_USERS_CRITICAL.
Proof.
  intros Hpro Htry Hin Hskip.
  rewrite (try_block_loop _ _ _ _ Hpro) in Htry.
  destruct (for_loop _ (storage opts) no_locals) as [t1 r1] eqn:Hloop.
  simpl in Htry. injection Htry as <- ->.
  pose proof (for_loop_recorded E opts c _ _ _ _ recorded_no_locals Hloop) as Hrec.
  pose proof (proj2 (for_loop_dom E opts c _ _ _ _ Hloop s)) as Hdom.
  assert (s ∈ dom (exceeding_users l)) as Hu by auto.
  assert (s ∈ dom (exceeding_filesets l)) as Hf
    by by rewrite <- (recorded_same _ Hrec).
  apply elem_of_dom in Hu as [eu Hu], Hf as [ef Hf].
  exists ef, eu.
  destruct (recorded_users _ Hrec _ _ Hu) as (? & ? & ?).
  destruct (recorded_filesets _ Hrec _ _ Hf) as (? & ?).
  done.
Qed.

(** Every target that is not skipped has both its notifications sent,
    and returned, by the time the loop is over. *)
Lemma for_loop_notified E opts (c : scan) names l t l' s :
  for_loop (body_of E opts c) names l = (t, Ok l') →
  s ∈ names → ¬ skipped c s →
  ∃ l0 ef eu ts ta tc,
    processing E opts c s l0 ef eu ts ∧ t = ta ++ ts ++ tc.
Proof.
  revert l t. induction names as [|s0 names IH]; intros l t; simpl.
  - intros _ Hs. by apply elem_of_nil in Hs.
  - destruct (body_of E opts c s0 l) as [t1 [l1|e]] eqn:Hbody; simpl; [|done].
    destruct (for_loop _ names l1) as [t2 r] eqn:Hrest.
    intros [= <- ->] Hin Hskip.
    apply elem_of_cons in Hin as [->|Hin].
    + apply body_ok_inv in Hbody as [(? & _)|(_ & ef & eu & Hproc & _)]; [done|].
      exists l, ef, eu, t1, [], t2. done.
    + destruct (IH _ _ Hrest Hin Hskip) as (l0 & ef & eu & ts & ta & tc & Hp & ->).
      exists l0, ef, eu, ts, (t1 ++ ta), tc. by rewrite <- app_assoc.
Qed.

Lemma report_reads_snapshot quota s ef eu n :
  Forall (reads_snapshot quota) (fileset_report s ef n)
  ∧ Forall (reads_snapshot quota) (user_report s eu).
Proof.
  unfold fileset_report, user_report.
  split; case_match; repeat (apply Forall_cons; split; [done|]);
    try apply Forall_nil_2; apply Forall_map, Forall_forall; by intros [].
Qed.

Lemma body_reads_snapshot E opts (c : scan) s l t r :
  body_of E opts c s l = (t, r) →
  Forall (reads_snapshot (the_quota c)) t.
Proof.
  unfold body_of. rewrite loop_body_view_eq. unfold loop_body_view.
  pose proof (λ ef n, proj1 (report_reads_snapshot (the_quota c) s ef [] n)) as Hf.
  pose proof (λ eu, proj2 (report_reads_snapshot (the_quota c) s [] eu 0%nat)) as Hu.
  repeat case_match; intros [= <- <-];
    repeat (apply Forall_cons; split; [by simpl|]);
    rewrite ?Forall_app; repeat split;
    first [ apply Hf | apply Hu | apply Forall_nil_2 | by apply Forall_singleton ].
Qed.

Lemma for_loop_reads_snapshot E opts (c : scan) names l t r :
  for_loop (body_of E opts c) names l = (t, r) →
  Forall (reads_snapshot (the_quota c)) t.
Proof.
  revert l t r. induction names as [|s names IH]; intros l t r; simpl.
  - by intros [= <- <-].
  - destruct (body_of E opts c s l) as [t1 r1] eqn:Hbody.
    pose proof (body_reads_snapshot _ _ _ _ _ _ _ Hbody) as H1.
    destruct r1 as [l1|e]; simpl; [|by intros [= <- <-]].
    destruct (for_loop _ names l1) as [t2 r2] eqn:Hrest.
    intros [= <- <-]. apply Forall_app. eauto.
Qed.

(** With a storage name that [VscStorage] does not have, the prologue
    raises no later than in the list comprehension of line 85. *)
Lemma prologue_unknown E opts st s :
  VscStorage E = Ok st → s ∈ storage opts → st !! s = None →
  ∃ t err,
    prologue E opts = (t, Raise err)
    ∧ fetches t = 0%nat
    ∧ ∀ client uid cfg gpfs,
        AccountpageClient E (access_token opts) = Ok client →
        map_uids_to_names E = Ok uid →
        VscConfiguration E = Ok cfg →
        LdapQuery E cfg = Ok tt →
        GpfsOperations E = Ok gpfs →
        ∃ s', err = KeyError s' ∧ s' ∈ storage opts ∧ st !! s' = None
              ∧ t = [Call_AccountpageClient (access_token opts);
                     Call_map_uids_to_names; Call_VscConfiguration;
                     Call_LdapQuery cfg; Call_GpfsOperations; Call_VscStorage].
Proof.
  intros Hst Hin Hs. unfold prologue.
  destruct (AccountpageClient E _) as [client|e]; simpl;
    [|by eexists _, _; split; [done|split; [done|]]].
  destruct (map_uids_to_names E) as [uid|e]; simpl;
    [|by eexists _, _; split; [done|split; [done|]]].
  destruct (VscConfiguration E) as [cfg|e]; simpl;
    [|by eexists _, _; split; [done|split; [done|]]].
  destruct (LdapQuery E cfg) as [[]|e] eqn:Hldap; simpl.
  2:{ eexists _, _. split; [done|]. split; [done|].
      intros ???? _ _ [= <-]. congruence. }
  destruct (GpfsOperations E) as [gpfs|e]; simpl;
    [|by eexists _, _; split; [done|split; [done|]]].
  rewrite Hst. simpl.
  destruct (comprehension_unknown st _ _ Hin Hs) as (s' & -> & Hin' & Hs').
  simpl. eexists _, _. split; [done|]. split; [done|].
  intros ???? _ _ [= <-] _ _. by exists s'.
Qed.

Lemma exception_free_report E opts t err :
  ExtendedSimpleOption E = Ok opts →
  try_block E opts = (t, Raise err) →
  reported (main E).1 = [] ∧ (main E).2 = sys_exit NAGIOS_EXIT_CRITICAL.
Proof.
  intros Hopts Htry. rewrite (main_failed E opts t err Hopts Htry). simpl.
  destruct (try_block_trace _ _ _ _ Htry) as (Hrep & _ & _).
  by rewrite reported_app, Hrep.
Qed.

(** ** The dry-run flag *)

Lemma report_notifications s ef eu n :
  notifications (fileset_report s ef n) = []
  ∧ notifications (user_report s eu) = [].
Proof.
  assert (∀ xs : items,
            notifications (map (λ '(name, quota), Log warning (has_quota name quota)) xs)
            = []) as Hlog.
  { intros xs. induction xs as [|[]]; simpl; auto. }
  unfold fileset_report, user_report.
  split; case_match; try done; apply Hlog.
Qed.

Lemma loop_event_notifications t :
  Forall (λ ev, loop_event ev = false) t → notifications t = [].
Proof.
  induction 1 as [|ev t Hev _ IH]; [done|].
  destruct ev; try done; simpl in *; by rewrite ?IH.
Qed.

Lemma notifications_app t t' :
  notifications (t ++ t') = notifications t ++ notifications t'.
Proof. apply omap_app. Qed.

(** The notification functions are given the flag of the options. *)
Lemma body_flags E opts (c : scan) s l t r :
  body_of E opts c s l = (t, r) →
  Forall (λ n, passed_flag n = dry_run opts) (notifications t).
Proof.
  unfold body_of. rewrite loop_body_view_eq. unfold loop_body_view.
  pose proof (λ ef n, proj1 (report_notifications s ef [] n)) as Hf.
  pose proof (λ eu, proj2 (report_notifications s [] eu 0%nat)) as Hu.
  unfold notifications in *.
  repeat case_match; intros [= <- <-];
    cbn -[fileset_report user_report];
    rewrite ?omap_app, ?Hf, ?Hu; cbn -[fileset_report user_report];
    rewrite ?omap_app, ?Hf, ?Hu; cbn -[fileset_report user_report];
    by repeat (apply Forall_cons; split; [reflexivity|]).
Qed.

Lemma for_loop_flags E opts (c : scan) names l t r :
  for_loop (body_of E opts c) names l = (t, r) →
  Forall (λ n, passed_flag n = dry_run opts) (notifications t).
Proof.
  revert l t r. induction names as [|s names IH]; intros l t r; simpl.
  - by intros [= <- <-].
  - destruct (body_of E opts c s l) as [t1 r1] eqn:Hbody.
    pose proof (body_flags _ _ _ _ _ _ _ Hbody) as H1.
    destruct r1 as [l1|e]; simpl; [|by intros [= <- <-]].
    destruct (for_loop _ names l1) as [t2 r2] eqn:Hrest.
    intros [= <- <-]. rewrite notifications_app. apply Forall_app. eauto.
Qed.

(** With tools that do not look at the flag, an iteration gives the
    same result under both flags and is observed alike, the flag apart. *)
Lemma body_blind E opts (c : scan) s l :
  flag_blind E →
  (body_of E (with_dry_run true opts) c s l).2
  = (body_of E (with_dry_run false opts) c s l).2
  ∧ without_dry_run <$> (body_of E (with_dry_run true opts) c s l).1
    = without_dry_run <$> (body_of E (with_dry_run false opts) c s l).1.
Proof.
  intros HB. unfold body_of. rewrite !loop_body_view_eq.
  unfold loop_body_view. cbn [dry_run with_dry_run].
  destruct (the_storage c !! s) as [x|]; [|done].
  destruct (negb (contains (the_filesystems c) (filesystem x))); [done|].
  destruct (negb (contains (keys (the_quota c)) (filesystem x))); [done|].
  destruct (the_quota c !! filesystem x) as [raw|]; [|done].
  destruct (get_mmrepquota_maps E _ _ _ _ _) as [qsm|]; [|done].
  destruct (qsm !! "FILESET") as [qf|]; [|done].
  rewrite (blind_process_fileset_quota E HB _ _ _ _ _ _ true).
  destruct (process_fileset_quota E _ _ _ _ _ _ false) as [ef|]; [|done].
  destruct (qsm !! "USR") as [qu|]; [|done].
  rewrite (blind_process_user_quota E HB _ _ _ _ _ _ _ true).
  destruct (process_user_quota E _ _ _ _ _ _ _ false) as [eu|]; [|done].
  rewrite (blind_notify_exceeding_filesets E HB _ _ _ _ _ true).
  destruct (notify_exceeding_filesets E _ _ _ _ _ false) as [[]|];
    [|split; [done|]; cbn -[fileset_report user_report];
      by rewrite !fmap_app].
  rewrite (blind_notify_exceeding_users E HB _ _ _ _ _ true).
  destruct (notify_exceeding_users E _ _ _ _ _ false) as [[]|];
    (split; [done|]); cbn -[fileset_report user_report];
    by rewrite !fmap_app.
Qed.

Lemma for_loop_blind E opts (c : scan) names l :
  flag_blind E →
  (for_loop (body_of E (with_dry_run true opts) c) names l).2
  = (for_loop (body_of E (with_dry_run false opts) c) names l).2
  ∧ without_dry_run <$> (for_loop (body_of E (with_dry_run true opts) c) names l).1
    = without_dry_run <$> (for_loop (body_of E (with_dry_run false opts) c) names l).1.
Proof.
  intros HB. revert l. induction names as [|s names IH]; intros l; [done|].
  simpl. destruct (body_blind E opts c s l HB) as [Hr Ht].
  destruct (body_of E (with_dry_run true opts) c s l) as [t1 r1].
  destruct (body_of E (with_dry_run false opts) c s l) as [t2 r2].
  simpl in *. subst r2. destruct r1 as [l1|e]; simpl; [|done].
  destruct (IH l1) as [Hr' Ht'].
  destruct (for_loop (body_of E (with_dry_run true opts) c) names l1) as [t3 r3].
  destruct (for_loop (body_of E (with_dry_run false opts) c) names l1) as [t4 r4].
  simpl in *. subst r4. split; [done|]. by rewrite !fmap_app, Ht, Ht'.
Qed.

Lemma try_block_blind E opts :
  flag_blind E →
  (try_block E (with_dry_run true opts)).2 = (try_block E (with_dry_run false opts)).2
  ∧ without_dry_run <$> (try_block E (with_dry_run true opts)).1
    = without_dry_run <$> (try_block E (with_dry_run false opts)).1.
Proof.
  intros HB. unfold try_block.
  change (prologue E (with_dry_run true opts)) with (prologue E opts).
  change (prologue E (with_dry_run false opts)) with (prologue E opts).
  destruct (prologue E opts) as [t0 [c|e]]; simpl; [|done].
  change (storage (with_dry_run true opts)) with (storage opts).
  change (storage (with_dry_run false opts)) with (storage opts).
  destruct (for_loop_blind E opts c (storage opts) no_locals HB) as [Hr Ht].
  destruct (for_loop (body_of E (with_dry_run true opts) c) _ _) as [t1 r1].
  destruct (for_loop (body_of E (with_dry_run false opts) c) _ _) as [t2 r2].
  simpl in *. subst r2. split; [done|]. by rewrite !fmap_app, Ht.
Qed.

Lemma try_block_flags E opts t (r : result locals) :
  try_block E opts = (t, r) →
  Forall (λ n, passed_flag n = dry_run opts) (notifications t).
Proof.
  unfold try_block.
  destruct (prologue E opts) as [t0 [c|e]] eqn:Hpro; simpl;
    destruct (prologue_trace _ _ _ _ Hpro) as (Hev & _).
  - destruct (for_loop _ (storage opts) no_locals) as [t1 r1] eqn:Hloop.
    intros [= <- <-].
    rewrite notifications_app, (loop_event_notifications _ Hev). simpl.
    by eapply for_loop_flags.
  - intros [= <- <-]. by rewrite (loop_event_notifications _ Hev).
Qed.

Lemma main_with_options E opts :
  main (with_options opts E)
  = match try_block E opts with
    | (t, Raise err) =>
        (t ++ [Log exception (critical_exception_caught err);
               Critical "Script failed in a horrible way"],
         sys_exit NAGIOS_EXIT_CRITICAL)
    | (t, Ok l) => (t ++ [Epilogue "quota check completed" (stats l)], returned)
    end.
Proof. reflexivity. Qed.

Lemma reported_without_dry_run t :
  reported (without_dry_run <$> t) = reported t.
Proof.
  unfold reported. induction t as [|ev t IH]; [done|].
  destruct ev; simpl in *; try done. f_equal. exact IH.
Qed.

(** ** The claims *)

(** C1. A configured storage target whose filesystem is not among the
    filesystems the backend knows, or is known but has no entry in the raw
    quota report, is skipped: its iteration logs an error record and leaves
    the three dictionaries as they were; the targets after it are
    processed from the same dictionaries; when the run completes, [stats]
    and the two exceeding dictionaries hold nothing for it.  With two
    targets of which the first is skipped and the second goes through,
    the reporter receives exactly the five entries of the second. *)
Theorem skipped_target_is_passed_over E opts t0 (c : scan) s :
  ExtendedSimpleOption E = Ok opts →
  prologue E opts = (t0, Ok c) →
  s ∈ storage opts →
  skipped c s →
  (∀ l, ∃ fs r,
     (r = non_existent_filesystem fs ∨ r = no_quota_defined s fs)
     ∧ body_of E opts c s l
       = ([Log info (processing_quota s); Log error r], Ok l))
  ∧ (∀ before rest l t1 l1,
       for_loop (body_of E opts c) before l = (t1, Ok l1) →
       ∃ r, for_loop (body_of E opts c) (before ++ s :: rest) l
            = (t1 ++ Log info (processing_quota s) :: Log error r
                  :: (for_loop (body_of E opts c) rest l1).1,
               (for_loop (body_of E opts c) rest l1).2))
  ∧ (∀ t l, try_block E opts = (t, Ok l) →
       main E = (t ++ [Epilogue "quota check completed" (stats l)], returned)
       ∧ exceeding_filesets l !! s = None
       ∧ exceeding_users l !! s = None
       ∧ ∀ a, a ∈ counter_names → stats l !! (s +:+ a) = None)
  ∧ (∀ s2 ef eu t2,
       storage opts = [s; s2] →
       processing E opts c s2 no_locals ef eu t2 →
       ∃ r, main E
            = (t0 ++ Log info (processing_quota s) :: Log error r :: t2
                  ++ [Epilogue "quota check completed" (record_stats s2 ef eu ∅)],
               returned)).
Proof.
  intros Hopts Hpro Hin Hskip.
  assert (∀ l, ∃ fs r,
     (r = non_existent_filesystem fs ∨ r = no_quota_defined s fs)
     ∧ body_of E opts c s l
       = ([Log info (processing_quota s); Log error r], Ok l)) as Hbody.
  { intros l. destruct Hskip as (x & Hx & Hno).
    unfold body_of. rewrite loop_body_view_eq. unfold loop_body_view.
    rewrite Hx.
    destruct (contains (the_filesystems c) (filesystem x)) eqn:Hfs; simpl.
    - destruct Hno as [?|Hq]; [done|]. rewrite Hq. simpl. eauto 6.
    - eauto 6. }
  split; [done|]. split; [|split].
  - intros before rest l t1 l1 Hbefore.
    destruct (Hbody l1) as (fs & r & _ & Hb). exists r.
    rewrite for_loop_app, Hbefore. simpl. rewrite Hb. simpl.
    by destruct (for_loop _ rest l1).
  - intros t l Htry. split; [by apply (main_completed E opts)|].
    rewrite (try_block_loop _ _ _ _ Hpro) in Htry.
    destruct (for_loop _ (storage opts) no_locals) as [t1 r1] eqn:Hloop.
    simpl in Htry. injection Htry as <- ->.
    pose proof (for_loop_recorded E opts c _ _ _ _ recorded_no_locals Hloop) as Hrec.
    pose proof (for_loop_dom E opts c _ _ _ _ Hloop s) as Hdom.
    assert (s ∉ dom (exceeding_users l)) as Hnot.
    { rewrite Hdom. simpl. rewrite dom_empty_L, elem_of_empty. tauto. }
    split; [|split].
    + apply not_elem_of_dom. by rewrite <- (recorded_same _ Hrec).
    + by apply not_elem_of_dom.
    + intros a Ha. apply eq_None_not_Some. intros Hsome.
      destruct (recorded_keys _ Hrec _ Hsome) as (s' & a' & Heq & Ha' & Hs').
      apply key_inj in Heq as [-> _]; done.
  - intros s2 ef eu t2 Hnames Hproc.
    destruct (Hbody no_locals) as (fs & r & _ & Hb). exists r.
    erewrite main_completed; [|done|].
    2:{ rewrite (try_block_loop _ _ _ _ Hpro), Hnames. simpl.
        rewrite Hb. simpl. rewrite (body_processing _ _ _ _ _ _ _ _ Hproc).
        simpl. rewrite app_nil_r. reflexivity. }
    simpl. by rewrite <- app_assoc.
Qed.

(** C2. An exception raised anywhere under [try:] (by a collaborator, or
    a [KeyError] of the script's own lookups) ends the cycle: nothing more
    is observed of the loop, in particular no target after the one whose
    iteration raised is started; the exception is logged, the reporter is
    told "Script failed in a horrible way", whatever the exception, and
    never gets the [stats]; the process exits with
    [NAGIOS_EXIT_CRITICAL]. *)
Theorem exception_aborts_cycle E opts t err :
  ExtendedSimpleOption E = Ok opts →
  try_block E opts = (t, Raise err) →
  main E = (t ++ [Log exception (critical_exception_caught err);
                  Critical "Script failed in a horrible way"],
            sys_exit NAGIOS_EXIT_CRITICAL)
  ∧ reported (main E).1 = []
  ∧ (∀ t0 e0, prologue E opts = (t0, Raise e0) →
       t = t0 ∧ e0 = err ∧ started (main E).1 = [])
  ∧ (∀ t0 (c : scan), prologue E opts = (t0, Ok c) →
       ∃ done_names s rest t1 l1 t2,
         storage opts = done_names ++ s :: rest
         ∧ for_loop (body_of E opts c) done_names no_locals = (t1, Ok l1)
         ∧ body_of E opts c s l1 = (t2, Raise err)
         ∧ t = t0 ++ t1 ++ t2
         ∧ started (main E).1 = done_names ++ [s]).
Proof.
  intros Hopts Htry.
  rewrite (main_failed E opts t err Hopts Htry). simpl.
  destruct (try_block_trace _ _ _ _ Htry) as (Hrep & _ & _).
  split; [done|]. split; [by rewrite reported_app, Hrep|]. split.
  - intros t0 e0 Hpro. unfold try_block in Htry. rewrite Hpro in Htry.
    injection Htry as <- <-.
    destruct (prologue_trace _ _ _ _ Hpro) as (_ & Hst & _).
    by rewrite started_app, Hst.
  - intros t0 c Hpro. rewrite (try_block_loop _ _ _ _ Hpro) in Htry.
    destruct (for_loop _ (storage opts) no_locals) as [tl rl] eqn:Hloop.
    simpl in Htry. injection Htry as <- ->.
    destruct (for_loop_raise_inv _ _ _ _ _ Hloop)
      as (dn & s & rest & t1 & l1 & t2 & Hnames & Hdn & Hs & ->).
    exists dn, s, rest, t1, l1, t2. repeat (split; [done|]).
    destruct (prologue_trace _ _ _ _ Hpro) as (_ & Hst & _).
    destruct (for_loop_trace E opts c _ _ _ _ Hdn) as (_ & _ & Hst1).
    destruct (body_trace _ _ _ _ _ _ _ Hs) as (Hst2 & _).
    rewrite !started_app, Hst, (Hst1 _ eq_refl), Hst2. simpl.
    by rewrite app_nil_r.
Qed.

(** C5, as amended.  The three thresholds recorded for a processed
    target are the constants of the script, [QUOTA_FILESETS_CRITICAL] = 1,
    [QUOTA_USERS_WARNING] = 20 and [QUOTA_USERS_CRITICAL] = 40, whatever
    the options and the environment: no option carries a threshold. *)
Theorem thresholds_are_the_script_constants E opts t0 (c : scan) t l s :
  ExtendedSimpleOption E = Ok opts →
  prologue E opts = (t0, Ok c) →
  try_block E opts = (t, Ok l) →
  s ∈ storage opts → ¬ skipped c s →
  reported (main E).1 = [stats l]
  ∧ stats l !! (s +:+ "_fileset_critical") = Some 1
  ∧ stats l !! (s +:+ "_users_warning") = Some 20
  ∧ stats l !! (s +:+ "_users_critical") = Some 40.
Proof.
  intros Hopts Hpro Htry Hin Hskip.
  rewrite (main_completed E opts t l Hopts Htry). simpl.
  destruct (try_block_trace _ _ _ _ Htry) as (Hrep & _ & _).
  rewrite reported_app, Hrep.
  destruct (completed_entries _ _ _ _ _ _ _ Hpro Htry Hin Hskip)
    as (ef & eu & _ & _ & _ & ? & _ & ? & ?).
  done.
Qed.

(** C7. The quota report is asked for at most once in a run.  When the
    run gets as far as the loop, it has been asked for exactly once, as the
    last thing before the loop; the loop does not ask again, each call of
    [get_mmrepquota_maps] is given what that one report holds for the
    filesystem, and the targets are started one after the other in the
    order of the options: all of them when the loop ends normally, the
    first ones up to the one that raised otherwise. *)
Theorem quota_report_fetched_once_before_loop E :
  (fetches (main E).1 ≤ 1)%nat
  ∧ ∀ opts t0 (c : scan),
      ExtendedSimpleOption E = Ok opts →
      prologue E opts = (t0, Ok c) →
      ∃ ta t1 r,
        t0 = ta ++ [Call_list_quota (the_gpfs c)]
        ∧ fetches ta = 0%nat
        ∧ list_quota E (the_gpfs c) = Ok (the_quota c)
        ∧ for_loop (body_of E opts c) (storage opts) no_locals = (t1, r)
        ∧ try_block E opts = (t0 ++ t1, r)
        ∧ Forall (λ ev, loop_event ev = false) t0
        ∧ Forall (λ ev, loop_event ev = true) t1
        ∧ fetches t1 = 0%nat
        ∧ fetches (main E).1 = 1%nat
        ∧ Forall (reads_snapshot (the_quota c)) t1
        ∧ started t0 = []
        ∧ started t1 `prefix_of` storage opts
        ∧ (∀ l, r = Ok l → started (main E).1 = storage opts).
Proof.
  split.
  - unfold main.
    destruct (ExtendedSimpleOption E) as [opts|]; [|unfold fetches; simpl; lia].
    destruct (try_block E opts) as [t [l|err]] eqn:Htry;
      destruct (try_block_trace _ _ _ _ Htry) as (_ & Hfetch & _);
      simpl; rewrite fetches_app; unfold fetches at 2; simpl; lia.
  - intros opts t0 c Hopts Hpro.
    destruct (prologue_ok_inv _ _ _ _ Hpro)
      as (cfg & tfs & fsd & _ & _ & _ & _ & _ & _ & _ & _ & _ & _ & Hq & Ht0).
    destruct (prologue_trace _ _ _ _ Hpro) as (Hev0 & Hst0 & Hrep0 & _).
    destruct (for_loop (body_of E opts c) (storage opts) no_locals)
      as [t1 r] eqn:Hloop.
    destruct (for_loop_trace E opts c _ _ _ _ Hloop) as (Hev1 & Hpre & Hall).
    pose proof (try_block_loop _ _ _ _ Hpro) as Htry.
    rewrite Hloop in Htry. simpl in Htry.
    exists [Call_AccountpageClient (access_token opts); Call_map_uids_to_names;
            Call_VscConfiguration; Call_LdapQuery cfg; Call_GpfsOperations;
            Call_VscStorage; Call_list_filesystems (the_gpfs c) tfs;
            Log debug (found_filesystems (the_filesystems c));
            Call_list_filesets (the_gpfs c);
            Log debug (found_filesets (the_filesets c))], t1, r.
    split; [by rewrite Ht0|].
    split; [done|]. split; [done|]. split; [done|]. split; [done|].
    split; [done|]. split; [done|].
    split; [by apply loop_event_fetches|].
    split.
    { unfold main. rewrite Hopts, Htry.
      destruct r; simpl; rewrite !fetches_app, (loop_event_fetches _ Hev1), Ht0;
        done. }
    split; [by eapply for_loop_reads_snapshot|].
    split; [done|]. split; [done|].
    intros l ->. rewrite (main_completed E opts _ l Hopts Htry). simpl.
    rewrite !started_app, Hst0, (Hall l eq_refl). simpl. by rewrite app_nil_r.
Qed.

(** C8. Whenever the reporter is handed [stats], that is the last thing
    observed of the run, and each entry in it belongs to a target for
    which [notify_exceeding_filesets] and then [notify_exceeding_users]
    were called, in dry-run mode with the flag set, and returned before.
    A run in which a notification raises hands over nothing. *)
Theorem stats_reported_after_notifications E opts t0 (c : scan) m :
  ExtendedSimpleOption E = Ok opts →
  prologue E opts = (t0, Ok c) →
  m ∈ reported (main E).1 →
  ∃ t l,
    try_block E opts = (t, Ok l)
    ∧ m = stats l
    ∧ main E = (t ++ [Epilogue "quota check completed" m], returned)
    ∧ reported t = []
    ∧ ∀ k, is_Some (m !! k) →
        ∃ s a x ef eu ta tb tc,
          k = s +:+ a ∧ a ∈ counter_names ∧ s ∈ storage opts
          ∧ the_storage c !! s = Some x
          ∧ t = ta ++ Call_notify_exceeding_filesets (the_gpfs c) s (filesystem x)
                        ef (the_client c) (dry_run opts)
                   :: tb ++ Call_notify_exceeding_users (the_gpfs c) s (filesystem x)
                              eu (the_client c) (dry_run opts)
                   :: tc
          ∧ notify_exceeding_filesets E (the_gpfs c) s (filesystem x) ef
              (the_client c) (dry_run opts) = Ok tt
          ∧ notify_exceeding_users E (the_gpfs c) s (filesystem x) eu
              (the_client c) (dry_run opts) = Ok tt.
Proof.
  intros Hopts Hpro Hm.
  destruct (try_block E opts) as [t [l|err]] eqn:Htry.
  2:{ destruct (exception_free_report E opts t err Hopts Htry) as [Hrep _].
      rewrite Hrep in Hm. by apply elem_of_nil in Hm. }
  destruct (try_block_trace _ _ _ _ Htry) as (Hrep & _ & _).
  pose proof (main_completed E opts t l Hopts Htry) as Hmain.
  rewrite Hmain in Hm. simpl in Hm. rewrite reported_app, Hrep in Hm.
  apply list_elem_of_singleton in Hm as ->.
  exists t, l. repeat (split; [done|]).
  intros k Hk.
  rewrite (try_block_loop _ _ _ _ Hpro) in Htry.
  destruct (for_loop _ (storage opts) no_locals) as [t1 r1] eqn:Hloop.
  simpl in Htry. injection Htry as <- ->.
  pose proof (for_loop_recorded E opts c _ _ _ _ recorded_no_locals Hloop) as Hrec.
  destruct (recorded_keys _ Hrec _ Hk) as (s & a & -> & Ha & Hs).
  apply (for_loop_dom E opts c _ _ _ _ Hloop) in Hs as [Hs|[Hin Hskip]].
  { simpl in Hs. by rewrite dom_empty_L in Hs. }
  destruct (for_loop_notified _ _ _ _ _ _ _ _ Hloop Hin Hskip)
    as (l0 & ef & eu & ts & ta & tc & Hproc & ->).
  destruct Hproc as (x & raw & qsm & qf & qu & Hx & _ & _ & _ & _ & _ & _ & _
                     & _ & Hnf & Hnu & ->).
  exists s, a, x, ef, eu.
  exists (t0 ++ ta
          ++ [Log info (processing_quota s);
              Call_get_mmrepquota_maps raw s (filesystem x) (the_filesets c)
                (data_replication_factor x);
              Call_process_fileset_quota (the_storage c) (the_gpfs c) s
                (filesystem x) qf (the_client c) (dry_run opts);
              Call_process_user_quota (the_storage c) (the_gpfs c) s
                (filesystem x) qu (the_user_id_map c) (the_client c) (dry_run opts)]
          ++ fileset_report s ef (size (<[s:=ef]> (exceeding_filesets l0)))),
         (user_report s eu), tc.
  split; [done|]. split; [done|]. split; [done|]. split; [done|].
  split; [|done].
  repeat (rewrite <- app_assoc; cbn -[fileset_report user_report]).
  reflexivity.
Qed.

(** C9. When [opts.options.storage] holds a name that [VscStorage] does
    not have, the run fails before the loop: no target is started, no loop
    event is observed, the quota report is not even asked for, nothing is
    handed to the reporter, and the exit is the critical one.  When the
    five constructors before it succeed, the exception is the [KeyError]
    of such a name, raised right after [VscStorage()]. *)
Theorem unknown_storage_name_stops_before_loop E opts st s :
  ExtendedSimpleOption E = Ok opts →
  VscStorage E = Ok st →
  s ∈ storage opts →
  st !! s = None →
  ∃ t err,
    prologue E opts = (t, Raise err)
    ∧ try_block E opts = (t, Raise err)
    ∧ main E = (t ++ [Log exception (critical_exception_caught err);
                      Critical "Script failed in a horrible way"],
                sys_exit NAGIOS_EXIT_CRITICAL)
    ∧ Forall (λ ev, loop_event ev = false) (main E).1
    ∧ started (main E).1 = []
    ∧ reported (main E).1 = []
    ∧ fetches (main E).1 = 0%nat
    ∧ ∀ client uid cfg gpfs,
        AccountpageClient E (access_token opts) = Ok client →
        map_uids_to_names E = Ok uid →
        VscConfiguration E = Ok cfg →
        LdapQuery E cfg = Ok tt →
        GpfsOperations E = Ok gpfs →
        ∃ s', err = KeyError s' ∧ s' ∈ storage opts ∧ st !! s' = None
              ∧ t = [Call_AccountpageClient (access_token opts);
                     Call_map_uids_to_names; Call_VscConfiguration;
                     Call_LdapQuery cfg; Call_GpfsOperations; Call_VscStorage].
Proof.
  intros Hopts Hst Hin Hs.
  destruct (prologue_unknown E opts st s Hst Hin Hs) as (t & err & Hpro & Hf & Hkey).
  assert (try_block E opts = (t, Raise err)) as Htry.
  { unfold try_block. by rewrite Hpro. }
  destruct (prologue_trace _ _ _ _ Hpro) as (Hev & Hstart & Hrep & _).
  exists t, err. split; [done|]. split; [done|].
  rewrite (main_failed E opts t err Hopts Htry). simpl.
  split; [done|]. split; [|split; [|split; [|split]]].
  - apply Forall_app. split; [done|]. all_events.
  - by rewrite started_app, Hstart.
  - by rewrite reported_app, Hrep.
  - by rewrite fetches_app, Hf.
  - done.
Qed.

(** C10. With no storage name in the options, the loop body does not run;
    when the prologue goes through, [main] returns after handing the
    reporter "quota check completed" with an empty [stats]; and the only
    exceptions there can be are those the nine calls of the prologue
    raise. *)
Theorem empty_target_list_completes E opts :
  ExtendedSimpleOption E = Ok opts →
  storage opts = [] →
  Forall (λ ev, loop_event ev = false) (main E).1
  ∧ started (main E).1 = []
  ∧ (∀ t0 (c : scan), prologue E opts = (t0, Ok c) →
       main E = (t0 ++ [Epilogue "quota check completed" ∅], returned))
  ∧ (∀ client uid cfg gpfs st fsd fsets quota,
       AccountpageClient E (access_token opts) = Ok client →
       map_uids_to_names E = Ok uid →
       VscConfiguration E = Ok cfg →
       LdapQuery E cfg = Ok tt →
       GpfsOperations E = Ok gpfs →
       VscStorage E = Ok st →
       list_filesystems E gpfs [] = Ok fsd →
       list_filesets E gpfs = Ok fsets →
       list_quota E gpfs = Ok quota →
       main E = ([Call_AccountpageClient (access_token opts);
                  Call_map_uids_to_names; Call_VscConfiguration;
                  Call_LdapQuery cfg; Call_GpfsOperations; Call_VscStorage;
                  Call_list_filesystems gpfs [];
                  Log debug (found_filesystems (keys fsd));
                  Call_list_filesets gpfs; Log debug (found_filesets fsets);
                  Call_list_quota gpfs;
                  Epilogue "quota check completed" ∅],
                 returned))
  ∧ (∀ t err, try_block E opts = (t, Raise err) →
       AccountpageClient E (access_token opts) = Raise err
       ∨ map_uids_to_names E = Raise err
       ∨ VscConfiguration E = Raise err
       ∨ (∃ cfg, LdapQuery E cfg = Raise err)
       ∨ GpfsOperations E = Raise err
       ∨ VscStorage E = Raise err
       ∨ (∃ gpfs, list_filesystems E gpfs [] = Raise err)
       ∨ (∃ gpfs, list_filesets E gpfs = Raise err)
       ∨ (∃ gpfs, list_quota E gpfs = Raise err)).
Proof.
  intros Hopts Hnil.
  assert ((∃ t0 e, prologue E opts = (t0, Raise e)
                   ∧ try_block E opts = (t0, Raise e))
          ∨ ∃ t0 c, prologue E opts = (t0, Ok c)
                    ∧ try_block E opts = (t0, Ok no_locals)) as Htry.
  { unfold try_block. rewrite Hnil.
    destruct (prologue E opts) as [t0 [c|e]]; simpl.
    - right. exists t0, c. by rewrite app_nil_r.
    - left. by exists t0, e. }
  assert (∀ t0 (c : scan), prologue E opts = (t0, Ok c) →
            main E = (t0 ++ [Epilogue "quota check completed" ∅], returned)) as Hok.
  { intros t0 c Hpro.
    destruct Htry as [(? & ? & Hpro' & _)|(t0' & c' & Hpro' & Htry)];
      rewrite Hpro in Hpro'; [done|]. injection Hpro' as <- <-.
    by rewrite (main_completed E opts t0 no_locals Hopts Htry). }
  assert (Forall (λ ev, loop_event ev = false) (main E).1
          ∧ started (main E).1 = []) as [Hev Hstarted].
  { destruct Htry as [(t0 & e & Hpro & Htry)|(t0 & c & Hpro & _)];
      destruct (prologue_trace _ _ _ _ Hpro) as (Hev & Hst & _).
    - rewrite (main_failed E opts t0 e Hopts Htry). simpl.
      rewrite started_app, Hst.
      split; [|done]. apply Forall_app. split; [done|]. all_events.
    - rewrite (Hok _ _ Hpro). simpl. rewrite started_app, Hst.
      split; [|done]. apply Forall_app. split; [done|]. all_events. }
  split; [done|]. split; [done|]. split; [done|]. split.
  - intros client uid cfg gpfs st fsd fsets quota H1 H2 H3 H4 H5 H6 H7 H8 H9.
    rewrite (Hok [Call_AccountpageClient (access_token opts);
                  Call_map_uids_to_names; Call_VscConfiguration;
                  Call_LdapQuery cfg; Call_GpfsOperations; Call_VscStorage;
                  Call_list_filesystems gpfs [];
                  Log debug (found_filesystems (keys fsd));
                  Call_list_filesets gpfs; Log debug (found_filesets fsets);
                  Call_list_quota gpfs]
               {| the_client := client; the_user_id_map := uid; the_gpfs := gpfs;
                  the_storage := st; the_filesystems := keys fsd;
                  the_filesets := fsets; the_quota := quota |}); [done|].
    unfold prologue. rewrite Hnil, H1. simpl. rewrite H2. simpl.
    rewrite H3. simpl. rewrite H4. simpl. rewrite H5. simpl. rewrite H6. simpl.
    rewrite H7. simpl. rewrite H8. simpl. rewrite H9. simpl. reflexivity.
  - intros t err Hraise.
    destruct Htry as [(t0 & e & Hpro & Htry)|(? & ? & _ & Htry)]; [|congruence].
    rewrite Htry in Hraise. injection Hraise as -> ->.
    revert Hpro. unfold prologue. rewrite Hnil.
    destruct (AccountpageClient E _) as [client|e]; simpl;
      [|intros [= _ ->]; tauto].
    destruct (map_uids_to_names E) as [uid|e]; simpl;
      [|intros [= _ ->]; tauto].
    destruct (VscConfiguration E) as [cfg|e]; simpl;
      [|intros [= _ ->]; tauto].
    destruct (LdapQuery E cfg) as [[]|e] eqn:H4; simpl;
      [|intros [= _ ->]; eauto 10].
    destruct (GpfsOperations E) as [gpfs|e]; simpl;
      [|intros [= _ ->]; tauto].
    destruct (VscStorage E) as [st|e]; simpl;
      [|intros [= _ ->]; tauto].
    destruct (list_filesystems E gpfs []) as [fsd|e] eqn:H7; simpl;
      [|intros [= _ ->]; eauto 10].
    destruct (list_filesets E gpfs) as [fsets|e] eqn:H8; simpl;
      [|intros [= _ ->]; eauto 10].
    destruct (list_quota E gpfs) as [quota|e] eqn:H9; simpl;
      [done|intros [= _ ->]; eauto 12].
Qed.

(** C6, as amended.  Provided the tools and the notification functions
    return the same whatever flag they are given, a run with the dry-run
    flag set and a run with it unset, on the same options otherwise and in
    the same environment, end alike with the same three dictionaries, hand
    the same [stats] to the reporter, and are observed alike event by
    event, up to the flag: [main] passes the flag on to
    [process_fileset_quota], [process_user_quota] and the two notification
    functions, which are called with [dry_run=True] in the one run and
    [dry_run=False] in the other, the other arguments being the same. *)
Theorem dry_run_differs_only_in_the_flag E opts :
  flag_blind E →
  (try_block E (with_dry_run true opts)).2 = (try_block E (with_dry_run false opts)).2
  ∧ (main (with_options (with_dry_run true opts) E)).2
    = (main (with_options (with_dry_run false opts) E)).2
  ∧ reported (main (with_options (with_dry_run true opts) E)).1
    = reported (main (with_options (with_dry_run false opts) E)).1
  ∧ without_dry_run <$> (main (with_options (with_dry_run true opts) E)).1
    = without_dry_run <$> (main (with_options (with_dry_run false opts) E)).1
  ∧ Forall (λ n, passed_flag n = true)
      (notifications (main (with_options (with_dry_run true opts) E)).1)
  ∧ Forall (λ n, passed_flag n = false)
      (notifications (main (with_options (with_dry_run false opts) E)).1).
Proof.
  intros HB.
  destruct (try_block_blind E opts HB) as [Hr Ht].
  assert (∀ d, Forall (λ n, passed_flag n = d)
                 (notifications (main (with_options (with_dry_run d opts) E)).1))
    as Hflags.
  { intros d. rewrite main_with_options.
    destruct (try_block E (with_dry_run d opts)) as [t r] eqn:Htry.
    pose proof (try_block_flags _ _ _ _ Htry) as H. simpl in H.
    destruct r; simpl; rewrite notifications_app; simpl; by rewrite app_nil_r. }
  assert ((main (with_options (with_dry_run true opts) E)).2
          = (main (with_options (with_dry_run false opts) E)).2
          ∧ without_dry_run <$> (main (with_options (with_dry_run true opts) E)).1
            = without_dry_run <$> (main (with_options (with_dry_run false opts) E)).1)
    as [Hend Hobs].
  { rewrite !main_with_options.
    destruct (try_block E (with_dry_run true opts)) as [t1 r1].
    destruct (try_block E (with_dry_run false opts)) as [t2 r2].
    simpl in *. subst r2. destruct r1; simpl; by rewrite !fmap_app, Ht. }
  split; [done|]. split; [done|]. split; [|by auto].
  by rewrite <- (reported_without_dry_run (main _).1), Hobs,
    reported_without_dry_run.
Qed.

(** ** Further properties of [main] *)

Lemma contains_keys {V} (m : gmap string V) k :
  contains (keys m) k = true ↔ is_Some (m !! k).
Proof.
  unfold contains, keys. rewrite bool_decide_eq_true, list_elem_of_fmap.
  split.
  - intros ([k' v] & -> & Hin). apply elem_of_map_to_list in Hin. eauto.
  - intros [v Hv]. exists (k, v). split; [done|]. by apply elem_of_map_to_list.
Qed.

Lemma skipped_skip_record (c : scan) s :
  skipped c s ↔ is_Some (skip_record c s).
Proof.
  unfold skipped, skip_record. split.
  - intros (x & -> & [H|H]); rewrite H; simpl; [by eauto|].
    destruct (contains (the_filesystems c) _); simpl; eauto.
  - destruct (the_storage c !! s) as [x|]; [|by intros []].
    intros Hsome. exists x. split; [done|].
    destruct (contains (the_filesystems c) _); [|by left].
    destruct (contains (keys (the_quota c)) _); [|by right].
    by destruct Hsome.
Qed.

(** The iteration of a skipped target, with its record. *)
Lemma body_skip_record E opts (c : scan) s l r :
  skip_record c s = Some r →
  body_of E opts c s l = ([Log info (processing_quota s); Log error r], Ok l).
Proof.
  unfold skip_record, body_of. rewrite loop_body_view_eq. unfold loop_body_view.
  destruct (the_storage c !! s) as [x|]; [|done].
  destruct (negb (contains (the_filesystems c) _)); [by intros [= <-]|].
  destruct (negb (contains (keys (the_quota c)) _)); [by intros [= <-]|done].
Qed.

Lemma report_error_records s ef eu n :
  error_records (fileset_report s ef n) = []
  ∧ error_records (user_report s eu) = [].
Proof.
  assert (∀ xs : items,
            error_records (map (λ '(name, quota), Log warning (has_quota name quota)) xs)
            = []) as Hlog.
  { intros xs. induction xs as [|[]]; simpl; auto. }
  unfold fileset_report, user_report.
  split; case_match; try done; apply Hlog.
Qed.

Lemma error_records_app t t' :
  error_records (t ++ t') = error_records t ++ error_records t'.
Proof. apply omap_app. Qed.

Lemma processing_error_records E opts (c : scan) s l ef eu t :
  processing E opts c s l ef eu t → error_records t = [] ∧ skip_record c s = None.
Proof.
  intros (x & raw & qsm & qf & qu & Hx & Hfs & Hq & _ & _ & _ & _ & _ & _ & _ & _ & ->).
  split.
  - pose proof (λ ef n, proj1 (report_error_records s ef [] n)) as Hf.
    pose proof (λ eu, proj2 (report_error_records s [] eu 0%nat)) as Hu.
    unfold error_records in *.
    repeat (cbn -[fileset_report user_report]; rewrite ?omap_app, ?Hf, ?Hu).
    done.
  - unfold skip_record. by rewrite Hx, Hfs, Hq.
Qed.

Lemma for_loop_error_records E opts (c : scan) names l t l' :
  for_loop (body_of E opts c) names l = (t, Ok l') →
  error_records t = omap (skip_record c) names.
Proof.
  revert l t. induction names as [|s names IH]; intros l t; simpl.
  - by intros [= <- <-].
  - destruct (skip_record c s) as [r|] eqn:Hskip.
    + rewrite (body_skip_record E opts c s l r Hskip). simpl.
      destruct (for_loop _ names l) as [t2 r2] eqn:Hrest.
      intros [= <- ->]. simpl. f_equal. eauto.
    + destruct (body_of E opts c s l) as [t1 [l1|e]] eqn:Hbody; simpl; [|done].
      destruct (for_loop _ names l1) as [t2 r2] eqn:Hrest.
      intros [= <- ->].
      apply body_ok_inv in Hbody as [(Hs & _)|(_ & ef & eu & Hproc & _)].
      { apply skipped_skip_record in Hs. rewrite Hskip in Hs. by destruct Hs. }
      rewrite error_records_app, (proj1 (processing_error_records _ _ _ _ _ _ _ _ Hproc)).
      simpl. eauto.
Qed.

(** X1. In a completed run, the records logged at error level are, in
    order, those of the skipped targets: one per skipped entry of
    [opts.options.storage], the non-existent-filesystem record when the
    filesystem is not among the listed ones (whether or not it has quota),
    the no-quota record otherwise; nothing else is logged as an error. *)
Theorem error_records_are_those_of_the_skipped_targets E opts t0 (c : scan) t l :
  ExtendedSimpleOption E = Ok opts →
  prologue E opts = (t0, Ok c) →
  try_block E opts = (t, Ok l) →
  error_records (main E).1 = omap (skip_record c) (storage opts).
Proof.
  intros Hopts Hpro Htry.
  rewrite (main_completed E opts t l Hopts Htry). simpl.
  rewrite (try_block_loop _ _ _ _ Hpro) in Htry.
  destruct (for_loop _ (storage opts) no_locals) as [t1 r1] eqn:Hloop.
  simpl in Htry. injection Htry as <- ->.
  destruct (prologue_ok_inv _ _ _ _ Hpro)
    as (cfg & tfs & fsd & _ & _ & _ & _ & _ & _ & _ & _ & _ & _ & _ & ->).
  rewrite !error_records_app, (for_loop_error_records _ _ _ _ _ _ _ Hloop).
  simpl. by rewrite app_nil_r.
Qed.

(** X2. Skipped targets have no influence on a cycle: the loop ends the
    same way (the same three dictionaries, or the same exception) and
    sends the same notifications with the skipped names taken out of
    [opts.options.storage]. *)
Theorem skipped_targets_do_not_matter E opts (c : scan) names l :
  (for_loop (body_of E opts c) names l).2
  = (for_loop (body_of E opts c) (filter (λ s, skip_record c s = None) names) l).2
  ∧ notifications (for_loop (body_of E opts c) names l).1
    = notifications
        (for_loop (body_of E opts c) (filter (λ s, skip_record c s = None) names) l).1.
Proof.
  revert l. induction names as [|s names IH]; intros l; [done|].
  destruct (skip_record c s) as [r|] eqn:Hskip.
  - rewrite filter_cons_False by (by rewrite Hskip).
    simpl. rewrite (body_skip_record E opts c s l r Hskip). simpl.
    destruct (IH l) as [IH1 IH2].
    destruct (for_loop (body_of E opts c) names l) as [t2 r2]. by simpl in *.
  - rewrite filter_cons_True by done. simpl.
    destruct (body_of E opts c s l) as [t1 [l1|e]]; simpl; [|done].
    destruct (IH l1) as [IH1 IH2].
    destruct (for_loop (body_of E opts c) names l1) as [t2 r2].
    destruct (for_loop (body_of E opts c) (filter _ names) l1) as [t3 r3].
    simpl in *. by rewrite !notifications_app, IH2.
Qed.

(** ** One target and the others *)

Lemma record_stats_lookup s ef eu (m : gmap string Z) k :
  record_stats s ef eu m !! k
  = match entry s ef eu k with Some v => Some v | None => m !! k end.
Proof.
  unfold record_stats, entry. rewrite !lookup_insert.
  repeat case_decide; congruence.
Qed.

Lemma entry_key s ef eu k v :
  entry s ef eu k = Some v → ∃ a, a ∈ counter_names ∧ k = s +:+ a.
Proof.
  unfold entry. repeat case_decide; try done; intros _;
    eexists; (split; [|done]); counter_name.
Qed.

Lemma record_stats_comm s ef eu s' ef' eu' (m : gmap string Z) :
  s ≠ s' →
  record_stats s ef eu (record_stats s' ef' eu' m)
  = record_stats s' ef' eu' (record_stats s ef eu m).
Proof.
  intros Hne. apply map_eq. intros k. rewrite !record_stats_lookup.
  destruct (entry s ef eu k) as [v|] eqn:H1,
           (entry s' ef' eu' k) as [v'|] eqn:H2; try done.
  apply entry_key in H1 as (a & Ha & ->), H2 as (a' & Ha' & Heq).
  apply key_inj in Heq as [? _]; done.
Qed.

Lemma processed_comm s ef eu s' ef' eu' l :
  (s = s' → ef = ef' ∧ eu = eu') →
  processed s ef eu (processed s' ef' eu' l)
  = processed s' ef' eu' (processed s ef eu l).
Proof.
  intros Hsame. destruct (decide (s = s')) as [->|Hne].
  - by destruct (Hsame eq_refl) as [-> ->].
  - unfold processed. simpl. f_equal.
    + by apply insert_insert_ne.
    + by apply insert_insert_ne.
    + by apply record_stats_comm.
Qed.

(** What the tools find for a target does not depend on the dictionaries. *)
Lemma processing_functional E opts (c : scan) s l ef eu t l2 ef2 eu2 t2 :
  processing E opts c s l ef eu t →
  processing E opts c s l2 ef2 eu2 t2 →
  ef = ef2 ∧ eu = eu2.
Proof.
  intros (x & raw & qsm & qf & qu & Hx & _ & _ & Hraw & Hmaps & Hqf & Hef
          & Hqu & Heu & _)
         (x2 & raw2 & qsm2 & qf2 & qu2 & Hx2 & _ & _ & Hraw2 & Hmaps2 & Hqf2 & Hef2
          & Hqu2 & Heu2 & _).
  simpl in *. rewrite Hx in Hx2. injection Hx2 as <-.
  rewrite Hraw in Hraw2. injection Hraw2 as <-.
  rewrite Hmaps in Hmaps2. injection Hmaps2 as <-.
  rewrite Hqf in Hqf2. injection Hqf2 as <-.
  rewrite Hqu in Hqu2. injection Hqu2 as <-.
  rewrite Hef in Hef2. rewrite Heu in Heu2. by simplify_eq.
Qed.

Lemma processing_notifications E opts (c : scan) s l ef eu t :
  processing E opts c s l ef eu t →
  ∃ x, the_storage c !! s = Some x
       ∧ notifications t
         = [to_filesets (the_gpfs c) s (filesystem x) ef (the_client c) (dry_run opts);
            to_users (the_gpfs c) s (filesystem x) eu (the_client c) (dry_run opts)].
Proof.
  intros (x & raw & qsm & qf & qu & Hx & _ & _ & _ & _ & _ & _ & _ & _ & _ & _ & ->).
  exists x. split; [done|].
  pose proof (λ ef n, proj1 (report_notifications s ef [] n)) as Hf.
  pose proof (λ eu, proj2 (report_notifications s [] eu 0%nat)) as Hu.
  unfold notifications in *.
  repeat (cbn -[fileset_report user_report]; rewrite ?omap_app, ?Hf, ?Hu).
  done.
Qed.

Lemma processing_any_locals E opts (c : scan) s l ef eu t l2 :
  processing E opts c s l ef eu t →
  ∃ t2, processing E opts c s l2 ef eu t2.
Proof.
  intros (x & raw & qsm & qf & qu & ? & ? & ? & ? & ? & ? & ? & ? & ? & ? & ? & _).
  eexists. exists x, raw, qsm, qf, qu. simpl in *.
  repeat (split; [done|]). reflexivity.
Qed.

(** X3. An iteration does not depend on the targets before it: started
    from other dictionaries it is skipped again, or raises the same
    exception, or finds the same exceeding filesets and users, writes the
    same entries and sends the same notifications. *)
Theorem iteration_does_not_depend_on_earlier_targets E opts (c : scan) s l l2 :
  (∀ t e, body_of E opts c s l = (t, Raise e) →
     ∃ t2, body_of E opts c s l2 = (t2, Raise e)
           ∧ notifications t2 = notifications t)
  ∧ (∀ t l', body_of E opts c s l = (t, Ok l') →
       (l' = l ∧ body_of E opts c s l2 = (t, Ok l2))
       ∨ ∃ ef eu t2,
           l' = processed s ef eu l
           ∧ body_of E opts c s l2 = (t2, Ok (processed s ef eu l2))
           ∧ notifications t2 = notifications t).
Proof.
  split.
  - intros t e. unfold body_of. rewrite !loop_body_view_eq. unfold loop_body_view.
    pose proof (λ ef n, proj1 (report_notifications s ef [] n)) as Hf.
    pose proof (λ eu, proj2 (report_notifications s [] eu 0%nat)) as Hu.
    unfold notifications in *.
    repeat case_match; intros [= <- <-]; try done; eexists; (split; [done|]);
      repeat (cbn -[fileset_report user_report]; rewrite ?omap_app, ?Hf, ?Hu);
      done.
  - intros t l' Hbody.
    destruct (body_ok_inv _ _ _ _ _ _ _ Hbody)
      as [(Hskip & -> & r & ->)|(_ & ef & eu & Hproc & ->)].
    + left. split; [done|].
      apply skipped_skip_record in Hskip as [r' Hr'].
      rewrite (body_skip_record E opts c s l r' Hr') in Hbody.
      injection Hbody as <-. by apply body_skip_record.
    + right. destruct (processing_any_locals _ _ _ _ _ _ _ _ l2 Hproc) as [t2 Hproc2].
      exists ef, eu, t2. split; [done|].
      split; [by apply body_processing|].
      destruct (processing_notifications _ _ _ _ _ _ _ _ Hproc) as (x & Hx & ->).
      destruct (processing_notifications _ _ _ _ _ _ _ _ Hproc2) as (x2 & Hx2 & ->).
      rewrite Hx in Hx2. by injection Hx2 as <-.
Qed.

(** What an iteration does to the dictionaries, whatever they are. *)
Lemma body_ok_any E opts (c : scan) s l t l' :
  body_of E opts c s l = (t, Ok l') →
  ∃ f : locals → locals,
    l' = f l
    ∧ (∀ l2, ∃ t2, body_of E opts c s l2 = (t2, Ok (f l2)))
    ∧ (f = id
       ∨ ∃ ef eu l0 t0, f = processed s ef eu ∧ processing E opts c s l0 ef eu t0).
Proof.
  intros Hbody.
  destruct (body_ok_inv _ _ _ _ _ _ _ Hbody)
    as [(Hskip & -> & r & ->)|(_ & ef & eu & Hproc & ->)].
  - exists id. split; [done|]. split; [|by left].
    apply skipped_skip_record in Hskip as [r' Hr'].
    intros l2. eexists. by apply body_skip_record.
  - exists (processed s ef eu). split; [done|]. split; [|by eauto 8].
    intros l2. destruct (processing_any_locals _ _ _ _ _ _ _ _ l2 Hproc) as [t2 H2].
    exists t2. by apply body_processing.
Qed.

(** X4. The order of the storage names has no influence on what a
    completed cycle leaves in [stats] and in the two exceeding
    dictionaries: the loop over any rearrangement of the names completes
    too, with the same three dictionaries. *)
Theorem order_of_targets_does_not_matter E opts (c : scan) names names' l t l1 :
  names ≡ₚ names' →
  for_loop (body_of E opts c) names l = (t, Ok l1) →
  ∃ t', for_loop (body_of E opts c) names' l = (t', Ok l1).
Proof.
  intros Hperm. revert l t l1.
  induction Hperm as [|x n n' _ IH|x y n|n n' n'' _ IH1 _ IH2]; intros l t l1.
  - eauto.
  - simpl. destruct (body_of E opts c x l) as [t1 [la|e]]; simpl; [|done].
    destruct (for_loop _ n la) as [t2 r2] eqn:Hrest. intros [= <- ->].
    destruct (IH _ _ _ Hrest) as [t' ->]. eauto.
  - simpl.
    destruct (body_of E opts c y l) as [t1 [la|e]] eqn:Hy; simpl; [|done].
    destruct (body_of E opts c x la) as [t2 [lb|e]] eqn:Hx; simpl; [|done].
    destruct (for_loop _ n lb) as [t3 r3] eqn:Hrest. intros [= <- ->].
    destruct (body_ok_any _ _ _ _ _ _ _ Hy) as (fy & -> & Hfy & Hy').
    destruct (body_ok_any _ _ _ _ _ _ _ Hx) as (fx & -> & Hfx & Hx').
    destruct (Hfx l) as [tx ->]. simpl.
    destruct (Hfy (fx l)) as [ty ->]. simpl.
    assert (fy (fx l) = fx (fy l)) as ->.
    { destruct Hy' as [->|(ef & eu & l0 & t0 & -> & Hp)],
               Hx' as [->|(ef' & eu' & l0' & t0' & -> & Hp')]; try done.
      apply processed_comm. intros ->.
      by destruct (processing_functional _ _ _ _ _ _ _ _ _ _ _ _ Hp Hp'). }
    rewrite Hrest. eauto.
  - intros H1. destruct (IH1 _ _ _ H1) as [t' H2]. eauto.
Qed.

(** The five entries and the two lists of [s] are in place. *)
Lemma processed_id s ef eu l :
  exceeding_filesets l !! s = Some ef →
  exceeding_users l !! s = Some eu →
  (∀ k v, entry s ef eu k = Some v → stats l !! k = Some v) →
  processed s ef eu l = l.
Proof.
  intros Hf Hu Hst. destruct l as [lf lu ls]. unfold processed. simpl in *.
  f_equal; try by apply insert_id.
  apply map_eq. intros k. rewrite record_stats_lookup.
  destruct (entry s ef eu k) as [v|] eqn:Hk; [|done]. symmetry. eauto.
Qed.

Lemma entry_other s ef eu s' a :
  s' ≠ s → a ∈ counter_names → entry s ef eu (s' +:+ a) = None.
Proof.
  intros Hne Ha. destruct (entry s ef eu (s' +:+ a)) as [v|] eqn:Hk; [|done].
  apply entry_key in Hk as (a' & Ha' & Heq).
  apply key_inj in Heq as [? _]; done.
Qed.

(** Once a target has been processed, the rest of the loop leaves its
    lists and its entries as they are. *)
Lemma for_loop_keeps E opts (c : scan) names l t l' s ef eu l0 t0 :
  processing E opts c s l0 ef eu t0 →
  exceeding_filesets l !! s = Some ef →
  exceeding_users l !! s = Some eu →
  (∀ k v, entry s ef eu k = Some v → stats l !! k = Some v) →
  for_loop (body_of E opts c) names l = (t, Ok l') →
  exceeding_filesets l' !! s = Some ef
  ∧ exceeding_users l' !! s = Some eu
  ∧ (∀ k v, entry s ef eu k = Some v → stats l' !! k = Some v).
Proof.
  intros Hproc. revert l t. induction names as [|s' names IH]; intros l t Hf Hu Hst;
    simpl.
  - by intros [= <- <-].
  - destruct (body_of E opts c s' l) as [t1 [l1|e]] eqn:Hbody; simpl; [|done].
    destruct (for_loop _ names l1) as [t2 r2] eqn:Hrest. intros [= <- ->].
    apply (IH _ _) in Hrest; [done|..];
      apply body_ok_inv in Hbody as [(_ & -> & _)|(_ & ef' & eu' & Hp' & ->)];
      try done; simpl.
    + destruct (decide (s = s')) as [<-|Hne].
      * destruct (processing_functional _ _ _ _ _ _ _ _ _ _ _ _ Hproc Hp') as [<- _].
        by rewrite lookup_insert_eq.
      * by rewrite lookup_insert_ne.
    + destruct (decide (s = s')) as [<-|Hne].
      * destruct (processing_functional _ _ _ _ _ _ _ _ _ _ _ _ Hproc Hp') as [_ <-].
        by rewrite lookup_insert_eq.
      * by rewrite lookup_insert_ne.
    + intros k v Hk. rewrite record_stats_lookup.
      destruct (decide (s = s')) as [<-|Hne].
      * destruct (processing_functional _ _ _ _ _ _ _ _ _ _ _ _ Hproc Hp') as [<- <-].
        by rewrite Hk.
      * pose proof Hk as Hk'. apply entry_key in Hk' as (a & Ha & ->).
        rewrite entry_other by done. eauto.
Qed.

Lemma entry_processed s ef eu l k v :
  entry s ef eu k = Some v → stats (processed s ef eu l) !! k = Some v.
Proof. intros Hk. simpl. by rewrite record_stats_lookup, Hk. Qed.

(** X5. Naming a storage twice changes nothing: after a completed loop,
    one more iteration for any of its names completes as well and leaves
    [stats] and the two exceeding dictionaries exactly as they are. *)
Theorem repeated_target_changes_nothing E opts (c : scan) names l t l1 s :
  s ∈ names →
  for_loop (body_of E opts c) names l = (t, Ok l1) →
  ∃ t', body_of E opts c s l1 = (t', Ok l1)
        ∧ for_loop (body_of E opts c) (names ++ [s]) l = (t ++ t', Ok l1).
Proof.
  intros Hin Hloop.
  assert (∃ t', body_of E opts c s l1 = (t', Ok l1)) as [t' Ht'].
  { revert l t Hloop. induction names as [|s' names IH]; intros l t; simpl.
    { by apply elem_of_nil in Hin. }
    destruct (body_of E opts c s' l) as [t1 [la|e]] eqn:Hbody; simpl; [|done].
    destruct (for_loop _ names la) as [t2 r2] eqn:Hrest. intros [= <- ->].
    apply elem_of_cons in Hin as [->|Hin]; [|by eauto].
    destruct (body_ok_any _ _ _ _ _ _ _ Hbody) as (f & -> & Hf & Hkind).
    destruct (Hf l1) as [t' Ht']. exists t'. rewrite Ht'. do 2 f_equal.
    destruct Hkind as [->|(ef & eu & l0 & t0 & -> & Hp)]; [done|].
    destruct (for_loop_keeps _ _ _ _ _ _ _ _ _ _ _ _ Hp
                (lookup_insert_eq _ _ _) (lookup_insert_eq _ _ _)
                (entry_processed s' ef eu l) Hrest) as (? & ? & ?).
    by apply processed_id. }
  exists t'. split; [done|].
  rewrite for_loop_app, Hloop. simpl. rewrite Ht'. simpl. by rewrite app_nil_r.
Qed.

(** ** The shape of [stats] *)

Lemma record_stats_size_old s ef eu (m : gmap string Z) :
  (∀ a, a ∈ counter_names → is_Some (m !! (s +:+ a))) →
  size (record_stats s ef eu m) = size m.
Proof.
  intros Hm. unfold record_stats. rewrite !map_size_insert.
  rewrite !lookup_insert_ne by (by apply counter_name_ne).
  destruct (Hm "_users") as [? ->]; [counter_name|].
  destruct (Hm "_users_critical") as [? ->]; [counter_name|].
  destruct (Hm "_users_warning") as [? ->]; [counter_name|].
  destruct (Hm "_fileset") as [? ->]; [counter_name|].
  destruct (Hm "_fileset_critical") as [? ->]; [counter_name|].
  done.
Qed.

Lemma record_stats_size_new s ef eu (m : gmap string Z) :
  (∀ a, a ∈ counter_names → m !! (s +:+ a) = None) →
  size (record_stats s ef eu m) = (5 + size m)%nat.
Proof.
  intros Hm. unfold record_stats. rewrite !map_size_insert.
  rewrite !lookup_insert_ne by (by apply counter_name_ne).
  rewrite !Hm by counter_name. done.
Qed.

Lemma recorded_all_entries l s :
  recorded l → s ∈ dom (exceeding_users l) →
  ∀ a, a ∈ counter_names → is_Some (stats l !! (s +:+ a)).
Proof.
  intros Hrec Hs a Ha.
  assert (s ∈ dom (exceeding_filesets l)) as Hf
    by by rewrite <- (recorded_same _ Hrec).
  apply elem_of_dom in Hs as [eu Hu], Hf as [ef Hf].
  destruct (recorded_users _ Hrec _ _ Hu) as (? & ? & ?).
  destruct (recorded_filesets _ Hrec _ _ Hf) as (? & ?).
  unfold counter_names in Ha.
  repeat (apply elem_of_cons in Ha as [->|Ha]; [by eauto|]).
  by apply elem_of_nil in Ha.
Qed.

Lemma recorded_no_entries l s :
  recorded l → s ∉ dom (exceeding_users l) →
  ∀ a, a ∈ counter_names → stats l !! (s +:+ a) = None.
Proof.
  intros Hrec Hs a Ha. apply eq_None_not_Some. intros Hsome.
  destruct (recorded_keys _ Hrec _ Hsome) as (s' & a' & Heq & Ha' & Hs').
  apply key_inj in Heq as [-> _]; done.
Qed.

Lemma processed_size s ef eu l :
  recorded l →
  size (stats l) = (5 * size (exceeding_users l))%nat →
  size (stats (processed s ef eu l))
  = (5 * size (exceeding_users (processed s ef eu l)))%nat.
Proof.
  intros Hrec Hsize. simpl. rewrite map_size_insert.
  destruct (exceeding_users l !! s) as [eu0|] eqn:Hs.
  - rewrite record_stats_size_old; [done|].
    apply recorded_all_entries; [done|]. apply elem_of_dom. eauto.
  - rewrite record_stats_size_new; [lia|].
    apply recorded_no_entries; [done|]. by apply not_elem_of_dom.
Qed.

Lemma for_loop_size E opts (c : scan) names l t l' :
  recorded l →
  size (stats l) = (5 * size (exceeding_users l))%nat →
  for_loop (body_of E opts c) names l = (t, Ok l') →
  size (stats l') = (5 * size (exceeding_users l'))%nat.
Proof.
  revert l t. induction names as [|s names IH]; intros l t Hrec Hsize; simpl.
  - by intros [= <- <-].
  - destruct (body_of E opts c s l) as [t1 [l1|e]] eqn:Hbody; simpl; [|done].
    destruct (for_loop _ names l1) as [t2 r] eqn:Hrest.
    intros [= <- ->].
    apply body_ok_inv in Hbody as [(_ & -> & _)|(_ & ef & eu & _ & ->)];
      eauto using recorded_processed, processed_size.
Qed.

(** X6. When a cycle completes, [stats] holds exactly the five entries
    [_fileset_critical], [_fileset], [_users_warning], [_users_critical]
    and [_users] of each storage name that was not skipped, and nothing
    else: five times as many entries as there are distinct processed
    names, which are also the keys of both exceeding dictionaries. *)
Theorem stats_hold_five_entries_per_processed_target E opts t0 (c : scan) t l :
  prologue E opts = (t0, Ok c) →
  try_block E opts = (t, Ok l) →
  (∀ s, s ∈ dom (exceeding_users l) ↔ s ∈ storage opts ∧ ¬ skipped c s)
  ∧ dom (exceeding_filesets l) = dom (exceeding_users l)
  ∧ (∀ k, is_Some (stats l !! k) ↔
          ∃ s a, k = s +:+ a ∧ a ∈ counter_names
                 ∧ s ∈ storage opts ∧ ¬ skipped c s)
  ∧ size (stats l) = (5 * size (exceeding_users l))%nat.
Proof.
  intros Hpro Htry.
  rewrite (try_block_loop _ _ _ _ Hpro) in Htry.
  destruct (for_loop _ (storage opts) no_locals) as [t1 r1] eqn:Hloop.
  simpl in Htry. injection Htry as <- ->.
  pose proof (for_loop_recorded E opts c _ _ _ _ recorded_no_locals Hloop) as Hrec.
  assert (∀ s, s ∈ dom (exceeding_users l) ↔ s ∈ storage opts ∧ ¬ skipped c s)
    as Hdom.
  { intros s. rewrite (for_loop_dom E opts c _ _ _ _ Hloop s). simpl.
    rewrite dom_empty_L, elem_of_empty. tauto. }
  split; [done|]. split; [by rewrite (recorded_same _ Hrec)|]. split.
  - intros k. split.
    + intros Hk. destruct (recorded_keys _ Hrec _ Hk) as (s & a & -> & Ha & Hs).
      exists s, a. apply Hdom in Hs. tauto.
    + intros (s & a & -> & Ha & Hs). apply recorded_all_entries; [done| |done].
      by apply Hdom.
  - by apply (for_loop_size E opts c _ _ _ _ recorded_no_locals eq_refl Hloop).
Qed.

(** The lists and entries of a target from the iteration that wrote them. *)
Lemma for_loop_found E opts (c : scan) names l t l' s :
  for_loop (body_of E opts c) names l = (t, Ok l') →
  s ∈ names → ¬ skipped c s →
  ∃ ef eu l0 t0,
    processing E opts c s l0 ef eu t0
    ∧ exceeding_filesets l' !! s = Some ef
    ∧ exceeding_users l' !! s = Some eu
    ∧ ∀ k v, entry s ef eu k = Some v → stats l' !! k = Some v.
Proof.
  revert l t. induction names as [|s' names IH]; intros l t; simpl.
  - intros _ Hs. by apply elem_of_nil in Hs.
  - destruct (body_of E opts c s' l) as [t1 [l1|e]] eqn:Hbody; simpl; [|done].
    destruct (for_loop _ names l1) as [t2 r] eqn:Hrest.
    intros [= <- ->] Hin Hskip.
    destruct (decide (s = s')) as [<-|Hne].
    + apply body_ok_inv in Hbody as [(? & _)|(_ & ef & eu & Hproc & ->)]; [done|].
      exists ef, eu, l, t1. split; [done|].
      by apply (for_loop_keeps E opts c names (processed s ef eu l) t2 l' s ef eu l t1 Hproc
                  (lookup_insert_eq _ _ _) (lookup_insert_eq _ _ _)
                  (entry_processed s ef eu l)).
    + apply elem_of_cons in Hin as [?|Hin]; [done|]. by eapply IH.
Qed.

(** X7. For a target that was not skipped, a completed cycle leaves in
    [exceeding_users] and [exceeding_filesets] what [process_user_quota]
    and [process_fileset_quota] returned for it; its [_users] entry is the
    length of the former, and 0 exactly when no user exceeds; its
    [_fileset] entry is 1 when the latter is non-empty and 0 when it is
    empty, whatever its length. *)
Theorem entries_of_a_processed_target E opts t0 (c : scan) t l s :
  prologue E opts = (t0, Ok c) →
  try_block E opts = (t, Ok l) →
  s ∈ storage opts → ¬ skipped c s →
  ∃ ef eu l0 ts,
    processing E opts c s l0 ef eu ts
    ∧ exceeding_filesets l !! s = Some ef
    ∧ exceeding_users l !! s = Some eu
    ∧ stats l !! (s +:+ "_users") = Some (Z.of_nat (length eu))
    ∧ (stats l !! (s +:+ "_users") = Some 0 ↔ eu = [])
    ∧ stats l !! (s +:+ "_fileset") = Some (if truthy ef then 1 else 0)
    ∧ (stats l !! (s +:+ "_fileset") = Some 0 ↔ ef = []).
Proof.
  intros Hpro Htry Hin Hskip.
  rewrite (try_block_loop _ _ _ _ Hpro) in Htry.
  destruct (for_loop _ (storage opts) no_locals) as [t1 r1] eqn:Hloop.
  simpl in Htry. injection Htry as <- ->.
  destruct (for_loop_found _ _ _ _ _ _ _ _ Hloop Hin Hskip)
    as (ef & eu & l0 & ts & Hproc & Hf & Hu & _).
  pose proof (for_loop_recorded E opts c _ _ _ _ recorded_no_locals Hloop) as Hrec.
  destruct (recorded_users _ Hrec _ _ Hu) as (Hnu & _).
  destruct (recorded_filesets _ Hrec _ _ Hf) as (Hnf & _).
  exists ef, eu, l0, ts. repeat (split; [done|]).
  rewrite Hnu, Hnf. split; [|split; [done|]].
  - destruct eu; simpl; split; intros; by simplify_eq.
  - destruct ef; simpl; split; intros; by simplify_eq.
Qed.

(** ** Failures *)

(** X8. A failure does not take back what was done for the targets before
    it: when the iteration of a target raises, the notifications of every
    target processed earlier have been sent and have returned, their
    lists are in the dictionaries, and yet the reporter gets no [stats],
    only the critical message. *)
Theorem failure_leaves_earlier_notifications_sent
    E opts t0 (c : scan) done_names s rest t1 l1 t2 err :
  ExtendedSimpleOption E = Ok opts →
  prologue E opts = (t0, Ok c) →
  storage opts = done_names ++ s :: rest →
  for_loop (body_of E opts c) done_names no_locals = (t1, Ok l1) →
  body_of E opts c s l1 = (t2, Raise err) →
  main E = (t0 ++ t1 ++ t2
              ++ [Log exception (critical_exception_caught err);
                  Critical "Script failed in a horrible way"],
            sys_exit NAGIOS_EXIT_CRITICAL)
  ∧ reported (main E).1 = []
  ∧ ∀ s', s' ∈ done_names → ¬ skipped c s' →
      ∃ x ef eu,
        the_storage c !! s' = Some x
        ∧ exceeding_filesets l1 !! s' = Some ef
        ∧ exceeding_users l1 !! s' = Some eu
        ∧ to_filesets (the_gpfs c) s' (filesystem x) ef (the_client c) (dry_run opts)
            ∈ notifications (main E).1
        ∧ to_users (the_gpfs c) s' (filesystem x) eu (the_client c) (dry_run opts)
            ∈ notifications (main E).1
        ∧ notify_exceeding_filesets E (the_gpfs c) s' (filesystem x) ef
            (the_client c) (dry_run opts) = Ok tt
        ∧ notify_exceeding_users E (the_gpfs c) s' (filesystem x) eu
            (the_client c) (dry_run opts) = Ok tt.
Proof.
  intros Hopts Hpro Hnames Hdone Hbody.
  assert (try_block E opts = (t0 ++ t1 ++ t2, Raise err)) as Htry.
  { rewrite (try_block_loop _ _ _ _ Hpro), Hnames, for_loop_app, Hdone. simpl.
    by rewrite Hbody. }
  rewrite (main_failed E opts _ err Hopts Htry). simpl.
  destruct (try_block_trace _ _ _ _ Htry) as (Hrep & _ & _).
  split; [by rewrite <- !app_assoc|]. split; [by rewrite reported_app, Hrep|].
  intros s' Hin Hskip.
  destruct (for_loop_found _ _ _ _ _ _ _ _ Hdone Hin Hskip)
    as (ef & eu & l0 & ts & Hproc & Hf & Hu & _).
  destruct (for_loop_notified _ _ _ _ _ _ _ _ Hdone Hin Hskip)
    as (l0' & ef' & eu' & ts' & ta & tc & Hproc' & ->).
  destruct (processing_functional _ _ _ _ _ _ _ _ _ _ _ _ Hproc Hproc') as [<- <-].
  destruct (processing_notifications _ _ _ _ _ _ _ _ Hproc') as (x & Hx & Hn).
  destruct Hproc' as (x' & raw & qsm & qf & qu & Hx' & _ & _ & _ & _ & _ & _ & _
                      & _ & Hnf & Hnu & _).
  simpl in *. rewrite Hx in Hx'. injection Hx' as <-.
  exists x, ef, eu. repeat (split; [done|]).
  rewrite !notifications_app, Hn.
  split; [|split; [|done]];
    apply elem_of_app; left; apply elem_of_app; right;
    apply elem_of_app; left; apply elem_of_app; right;
    apply elem_of_app; left.
  - apply list_elem_of_here.
  - apply list_elem_of_further, list_elem_of_here.
Qed.

(** X9. The two maps are looked up when the arguments of the calls are
    evaluated: a result of [get_mmrepquota_maps] without ['FILESET'] ends
    the iteration with that [KeyError] before any other tool is called;
    one with ['FILESET'] but without ['USR'] ends it with [KeyError]
    ['USR'] only after [process_fileset_quota] has been called and has
    returned. *)
Theorem missing_quota_map_is_a_key_error E opts (c : scan) s l x raw qsm :
  the_storage c !! s = Some x →
  skip_record c s = None →
  the_quota c !! filesystem x = Some raw →
  get_mmrepquota_maps E raw s (filesystem x) (the_filesets c)
    (data_replication_factor x) = Ok qsm →
  (qsm !! "FILESET" = None →
   body_of E opts c s l
   = ([Log info (processing_quota s);
       Call_get_mmrepquota_maps raw s (filesystem x) (the_filesets c)
         (data_replication_factor x)],
      Raise (KeyError "FILESET")))
  ∧ (∀ qf ef,
       qsm !! "FILESET" = Some qf →
       process_fileset_quota E (the_storage c) (the_gpfs c) s (filesystem x) qf
         (the_client c) (dry_run opts) = Ok ef →
       qsm !! "USR" = None →
       body_of E opts c s l
       = ([Log info (processing_quota s);
           Call_get_mmrepquota_maps raw s (filesystem x) (the_filesets c)
             (data_replication_factor x);
           Call_process_fileset_quota (the_storage c) (the_gpfs c) s (filesystem x)
             qf (the_client c) (dry_run opts)],
          Raise (KeyError "USR"))).
Proof.
  intros Hx Hskip Hraw Hmaps.
  unfold skip_record in Hskip. rewrite Hx in Hskip.
  unfold body_of. rewrite loop_body_view_eq. unfold loop_body_view. rewrite Hx.
  destruct (negb (contains (the_filesystems c) (filesystem x))); [done|].
  destruct (negb (contains (keys (the_quota c)) (filesystem x))); [done|].
  rewrite Hraw, Hmaps. split.
  - by intros ->.
  - intros qf ef -> -> ->. done.
Qed.

(** X10. Once the prologue is through, the script's own lookups cannot
    fail in the loop ([storage[storage_name]] has been looked up before
    the loop, [quota[filesystem]] is behind a membership test): a cycle
    that fails in the loop fails with an exception raised by one of the
    five tools, or with the [KeyError] of a map that
    [get_mmrepquota_maps] returned without ['FILESET'] or ['USR']. *)
Theorem loop_raises_only_what_the_tools_raise E opts t0 (c : scan) t e :
  prologue E opts = (t0, Ok c) →
  try_block E opts = (t, Raise e) →
  (∃ raw s fs fsets rf qsm,
     get_mmrepquota_maps E raw s fs fsets rf = Ok qsm
     ∧ ((qsm !! "FILESET" = None ∧ e = KeyError "FILESET")
        ∨ (qsm !! "USR" = None ∧ e = KeyError "USR")))
  ∨ (∃ raw s fs fsets rf, get_mmrepquota_maps E raw s fs fsets rf = Raise e)
  ∨ (∃ st g s fs q cl d, process_fileset_quota E st g s fs q cl d = Raise e)
  ∨ (∃ st g s fs q u cl d, process_user_quota E st g s fs q u cl d = Raise e)
  ∨ (∃ g s fs i cl d, notify_exceeding_filesets E g s fs i cl d = Raise e)
  ∨ (∃ g s fs i cl d, notify_exceeding_users E g s fs i cl d = Raise e).
Proof.
  intros Hpro Htry.
  rewrite (try_block_loop _ _ _ _ Hpro) in Htry.
  destruct (for_loop _ (storage opts) no_locals) as [t1 r1] eqn:Hloop.
  simpl in Htry. injection Htry as <- ->.
  destruct (for_loop_raise_inv _ _ _ _ _ Hloop)
    as (dn & s & rest & ta & la & tb & Hnames & _ & Hbody & _).
  destruct (prologue_ok_inv _ _ _ _ Hpro)
    as (_ & _ & _ & _ & _ & _ & _ & _ & _ & Hknown & _).
  destruct (Hknown s) as [x Hx].
  { rewrite Hnames. apply elem_of_app. right. apply list_elem_of_here. }
  revert Hbody. unfold body_of. rewrite loop_body_view_eq. unfold loop_body_view.
  rewrite Hx.
  destruct (negb (contains (the_filesystems c) (filesystem x))); [done|].
  destruct (negb (contains (keys (the_quota c)) (filesystem x))) eqn:Hq; [done|].
  apply negb_false_iff, contains_keys in Hq as [raw Hraw]. rewrite Hraw.
  destruct (get_mmrepquota_maps E _ _ _ _ _) as [qsm|e1] eqn:Hmaps;
    [|intros [= _ ->]; right; left; eauto 10].
  destruct (qsm !! "FILESET") as [qf|] eqn:Hqf;
    [|intros [= _ <-]; left; eauto 12].
  destruct (process_fileset_quota E _ _ _ _ _ _ _) as [ef|e1] eqn:Hef;
    [|intros [= _ ->]; do 2 right; left; eauto 12].
  destruct (qsm !! "USR") as [qu|] eqn:Hqu;
    [|intros [= _ <-]; left; eauto 12].
  destruct (process_user_quota E _ _ _ _ _ _ _ _) as [eu|e1] eqn:Heu;
    [|intros [= _ ->]; do 3 right; left; eauto 12].
  destruct (notify_exceeding_filesets E _ _ _ _ _ _) as [[]|e1] eqn:Hnf;
    [|intros [= _ ->]; do 4 right; left; eauto 12].
  destruct (notify_exceeding_users E _ _ _ _ _ _) as [[]|e1] eqn:Hnu;
    [done|intros [= _ ->]; do 5 right; eauto 12].
Qed.

(** ** The whole run *)

Lemma prologue_events_only E opts t (r : result scan) :
  prologue E opts = (t, r) → Forall (λ ev, prologue_event ev = true) t.
Proof.
  unfold prologue.
  assert (∀ t' (r' : result scan), (t', r') = (t, r) →
            Forall (λ ev, prologue_event ev = true) t' →
            Forall (λ ev, prologue_event ev = true) t) as Hend.
  { by intros t' r' [= <- <-]. }
  destruct (AccountpageClient E _) as [client|]; simpl;
    [|intros H; eapply Hend; [done|all_events]].
  destruct (map_uids_to_names E) as [uid|]; simpl;
    [|intros H; eapply Hend; [done|all_events]].
  destruct (VscConfiguration E) as [cfg|]; simpl;
    [|intros H; eapply Hend; [done|all_events]].
  destruct (LdapQuery E cfg) as [[]|]; simpl;
    [|intros H; eapply Hend; [done|all_events]].
  destruct (GpfsOperations E) as [gpfs|]; simpl;
    [|intros H; eapply Hend; [done|all_events]].
  destruct (VscStorage E) as [st|]; simpl;
    [|intros H; eapply Hend; [done|all_events]].
  pose proof (comprehension_trace st (storage opts)) as Htc.
  destruct (comprehension _ (storage opts)) as [tc [tfs|]]; simpl in *; subst tc;
    [|intros H; eapply Hend; [done|all_events]].
  simpl.
  destruct (list_filesystems E gpfs tfs) as [fsd|]; simpl;
    [|intros H; eapply Hend; [done|all_events]].
  destruct (list_filesets E gpfs) as [fsets|]; simpl;
    [|intros H; eapply Hend; [done|all_events]].
  destruct (list_quota E gpfs) as [quota|]; simpl;
    intros H; (eapply Hend; [done|all_events]).
Qed.

Lemma try_block_reports E opts t (r : result locals) :
  try_block E opts = (t, r) → Forall (λ ev, is_report ev = false) t.
Proof.
  unfold try_block.
  destruct (prologue E opts) as [t0 [c|e]] eqn:Hpro; simpl;
    pose proof (prologue_events_only _ _ _ _ Hpro) as Hev0.
  - destruct (for_loop _ (storage opts) no_locals) as [t1 r1] eqn:Hloop.
    destruct (for_loop_trace E opts c _ _ _ _ Hloop) as (Hev1 & _).
    intros [= <- <-]. apply Forall_app. split.
    + eapply Forall_impl; [done|]. by intros [[] []|? | | |?| | |??|?|?|?????|???????|????????|??????|??????|?|??].
    + eapply Forall_impl; [done|]. by intros [].
  - intros [= <- <-]. eapply Forall_impl; [done|].
    by intros [[] []|? | | |?| | |??|?|?|?????|???????|????????|??????|??????|?|??].
Qed.

(** X11. However a run goes once the options are parsed, the Nagios
    reporter is told exactly once, as the last thing the run does: the
    epilogue with [stats] when the block under [try:] completes, and then
    [main] returns; otherwise the critical message, right after the
    exception has been logged, and then the critical exit. *)
Theorem reporter_is_told_once_at_the_end E opts :
  ExtendedSimpleOption E = Ok opts →
  ∃ t ev,
    (main E).1 = t ++ [ev]
    ∧ Forall (λ ev, is_report ev = false) t
    ∧ ((∃ l, try_block E opts = (t, Ok l)
             ∧ ev = Epilogue "quota check completed" (stats l)
             ∧ (main E).2 = returned)
       ∨ (∃ t' err, try_block E opts = (t', Raise err)
                    ∧ t = t' ++ [Log exception (critical_exception_caught err)]
                    ∧ ev = Critical "Script failed in a horrible way"
                    ∧ (main E).2 = sys_exit NAGIOS_EXIT_CRITICAL)).
Proof.
  intros Hopts.
  destruct (try_block E opts) as [t [l|err]] eqn:Htry;
    pose proof (try_block_reports _ _ _ _ Htry) as Hrep.
  - rewrite (main_completed E opts t l Hopts Htry). simpl.
    exists t, (Epilogue "quota check completed" (stats l)).
    split; [done|]. split; [done|]. left. by exists l.
  - rewrite (main_failed E opts t err Hopts Htry). simpl.
    exists (t ++ [Log exception (critical_exception_caught err)]),
      (Critical "Script failed in a horrible way").
    split; [by rewrite <- app_assoc|]. split.
    + apply Forall_app. split; [done|]. all_events.
    + right. by exists t, err.
Qed.

Lemma comprehension_devices (st : gmap string Storage) names t tfs :
  comprehension (λ s, bind (getitem st s) (λ x, ret (filesystem x))) names
  = (t, Ok tfs) →
  Forall2 (λ s fs, ∃ x, st !! s = Some x ∧ filesystem x = fs) names tfs.
Proof.
  revert t tfs. induction names as [|s0 names IH]; intros t tfs; simpl.
  - intros [= <- <-]. constructor.
  - unfold getitem at 1. destruct (st !! s0) as [x|] eqn:Hs0; simpl; [|done].
    destruct (comprehension _ names) as [tc [tfs'|e]] eqn:Hc; simpl; [|done].
    intros [= <- <-]. constructor; eauto.
Qed.

(** X12. The devices [gpfs.list_filesystems] is asked about are the
    filesystems of the configured storage names, one per name and in the
    order of the names; [filesystems], against which the loop tests each
    target, is the key list of what that one call returned. *)
Theorem list_filesystems_is_asked_about_the_targets E opts t0 (c : scan) :
  prologue E opts = (t0, Ok c) →
  ∃ tfs fsd,
    Call_list_filesystems (the_gpfs c) tfs ∈ t0
    ∧ Forall2 (λ s fs, ∃ x, the_storage c !! s = Some x ∧ filesystem x = fs)
        (storage opts) tfs
    ∧ list_filesystems E (the_gpfs c) tfs = Ok fsd
    ∧ the_filesystems c = keys fsd.
Proof.
  unfold prologue.
  destruct (AccountpageClient E _) as [client|]; simpl; [|done].
  destruct (map_uids_to_names E) as [uid|]; simpl; [|done].
  destruct (VscConfiguration E) as [cfg|]; simpl; [|done].
  destruct (LdapQuery E cfg) as [[]|]; simpl; [|done].
  destruct (GpfsOperations E) as [gpfs|]; simpl; [|done].
  destruct (VscStorage E) as [st|]; simpl; [|done].
  pose proof (comprehension_trace st (storage opts)) as Htc.
  pose proof (comprehension_devices st (storage opts)) as Hdev.
  destruct (comprehension _ (storage opts)) as [tc [tfs|]]; simpl in *; [|done].
  subst tc. simpl.
  destruct (list_filesystems E gpfs tfs) as [fsd|] eqn:H7; simpl; [|done].
  destruct (list_filesets E gpfs) as [fsets|]; simpl; [|done].
  destruct (list_quota E gpfs) as [quota|]; simpl; [|done].
  intros [= <- <-]. simpl. exists tfs, fsd.
  split; [|by eauto].
  do 6 apply list_elem_of_further. apply list_elem_of_here.
Qed.

Lemma for_loop_notifications E opts (c : scan) names l t l' :
  for_loop (body_of E opts c) names l = (t, Ok l') →
  length (notifications t)
  = (2 * length (filter (λ s, skip_record c s = None) names))%nat.
Proof.
  revert l t. induction names as [|s names IH]; intros l t; simpl.
  - by intros [= <- <-].
  - destruct (body_of E opts c s l) as [t1 [l1|e]] eqn:Hbody; simpl; [|done].
    destruct (for_loop _ names l1) as [t2 r2] eqn:Hrest. intros [= <- ->].
    rewrite notifications_app, length_app, (IH _ _ Hrest).
    apply body_ok_inv in Hbody as [(Hs & _ & r & ->)|(Hs & ef & eu & Hproc & _)].
    + apply skipped_skip_record in Hs as [r' Hr'].
      rewrite filter_cons_False by (by rewrite Hr'). done.
    + destruct (processing_notifications _ _ _ _ _ _ _ _ Hproc) as (x & _ & ->).
      rewrite filter_cons_True.
      * simpl. lia.
      * apply eq_None_not_Some. by rewrite <- skipped_skip_record.
Qed.

(** X13. In a completed run each of the two notification functions has
    been called once for every entry of [opts.options.storage] that was
    not skipped, whether or not anything exceeds there: twice as many
    calls as processed entries, all with the flag of the options. *)
Theorem two_notifications_per_processed_target E opts t0 (c : scan) t l :
  ExtendedSimpleOption E = Ok opts →
  prologue E opts = (t0, Ok c) →
  try_block E opts = (t, Ok l) →
  length (notifications (main E).1)
  = (2 * length (filter (λ s, skip_record c s = None) (storage opts)))%nat
  ∧ Forall (λ n, passed_flag n = dry_run opts) (notifications (main E).1).
Proof.
  intros Hopts Hpro Htry.
  rewrite (main_completed E opts t l Hopts Htry). simpl.
  rewrite notifications_app. simpl. rewrite app_nil_r.
  split; [|by eapply try_block_flags].
  rewrite (try_block_loop _ _ _ _ Hpro) in Htry.
  destruct (for_loop _ (storage opts) no_locals) as [t1 r1] eqn:Hloop.
  simpl in Htry. injection Htry as <- ->.
  destruct (prologue_trace _ _ _ _ Hpro) as (Hev & _).
  rewrite notifications_app, (loop_event_notifications _ Hev). simpl.
  by eapply for_loop_notifications.
Qed.

Lemma report_for_a_storage st s ef eu n :
  Forall (for_a_storage st) (fileset_report s ef n)
  ∧ Forall (for_a_storage st) (user_report s eu).
Proof.
  unfold fileset_report, user_report.
  split; case_match; repeat (apply Forall_cons; split; [done|]);
    try apply Forall_nil_2; apply Forall_map, Forall_forall; by intros [].
Qed.

Lemma body_for_a_storage E opts (c : scan) s l t r :
  body_of E opts c s l = (t, r) →
  Forall (for_a_storage (the_storage c)) t.
Proof.
  unfold body_of. rewrite loop_body_view_eq. unfold loop_body_view.
  pose proof (λ ef n, proj1 (report_for_a_storage (the_storage c) s ef [] n)) as Hf.
  pose proof (λ eu, proj2 (report_for_a_storage (the_storage c) s [] eu 0%nat)) as Hu.
  repeat case_match; intros [= <- <-];
    repeat (apply Forall_cons; split; [by simpl; eauto|]);
    rewrite ?Forall_app; repeat split;
    first [ apply Hf | apply Hu | apply Forall_nil_2
          | apply Forall_singleton; by simpl; eauto ].
Qed.

(** X14. No target is mixed up with another: every call of a tool in the
    block under [try:] is made for a storage name that [VscStorage] has,
    with the filesystem of that very storage and, for
    [get_mmrepquota_maps], its replication factor. *)
Theorem tools_are_called_for_their_own_storage E opts t0 (c : scan) t r :
  prologue E opts = (t0, Ok c) →
  try_block E opts = (t, r) →
  Forall (for_a_storage (the_storage c)) t.
Proof.
  intros Hpro Htry.
  rewrite (try_block_loop _ _ _ _ Hpro) in Htry. injection Htry as <- <-.
  apply Forall_app. split.
  - pose proof (prologue_events_only _ _ _ _ Hpro) as Hev.
    eapply Forall_impl; [exact Hev|].
    by intros [[] []|? | | |?| | |??|?|?|?????|???????|????????|??????|??????|?|??].
  - generalize (storage opts) (@no_locals Quota).
    intros names l.
    destruct (for_loop (body_of E opts c) names l) as [t1 r1] eqn:Hloop. simpl.
    revert l t1 r1 Hloop. induction names as [|s names IH]; intros l t1 r1; simpl.
    + by intros [= <- <-].
    + destruct (body_of E opts c s l) as [ta ra] eqn:Hbody.
      pose proof (body_for_a_storage _ _ _ _ _ _ _ Hbody) as Ha.
      destruct ra as [la|e]; simpl; [|by intros [= <- <-]].
      destruct (for_loop _ names la) as [tb rb] eqn:Hrest.
      intros [= <- <-]. apply Forall_app. eauto.
Qed.

(** X15. The entries of different targets never collide, whatever the
    storage names are (one may be another with [_users] appended): an
    iteration that completes leaves every entry of [stats] and both
    lists of every other storage name as they were. *)
Theorem iteration_leaves_other_targets_alone E opts (c : scan) s l t l' s' a :
  body_of E opts c s l = (t, Ok l') →
  s' ≠ s → a ∈ counter_names →
  stats l' !! (s' +:+ a) = stats l !! (s' +:+ a)
  ∧ exceeding_filesets l' !! s' = exceeding_filesets l !! s'
  ∧ exceeding_users l' !! s' = exceeding_users l !! s'.
Proof.
  intros Hbody Hne Ha.
  apply body_ok_inv in Hbody as [(_ & -> & _)|(_ & ef & eu & _ & ->)]; [done|].
  simpl. rewrite record_stats_other by done.
  by rewrite !lookup_insert_ne.
Qed.

End Facts.


(** * The tools, and the installation *)

Import Tools.

(** C3. In the classifier of the specification, a record whose block
    usage has reached its block hard limit is in the exceeding set, with
    exceed-kind block or both, whatever its grace-expiry timestamps are,
    absent included, and whatever the evaluation time. *)
Theorem hard_limit_breach_is_exceeding (now : Z)
    (records : list (string * QuotaRecord)) (entity : string) (r : QuotaRecord) :
  (entity, r) ∈ records →
  block_hard_limit r ≤ block_usage r →
  (entity, r) ∈ exceeding now records
  ∧ ∃ k, (entity, r, k) ∈ classify now records ∧ k ≠ file.
Proof.
  intros Hin Hhard.
  assert (∃ k, exceeds now r = Some k ∧ k ≠ file) as (k & Hk & Hne).
  { unfold exceeds, dimension_exceeds.
    rewrite (proj2 (Z.leb_le _ _) Hhard). simpl.
    destruct (_ || _); eauto. }
  assert ((entity, r, k) ∈ classify now records) as Hc.
  { unfold classify. apply list_elem_of_omap. exists (entity, r).
    split; [done|]. simpl. by rewrite Hk. }
  split; [|by eauto].
  unfold exceeding. apply list_elem_of_fmap. by exists (entity, r, k).
Qed.

Lemma hard_limit_breach_is_exceeding_witness :
  ("2540001", Demo.record 200 150 200)
    ∈ exceeding 1000 [("2540002", Demo.record 120 150 200);
                      ("2540001", Demo.record 200 150 200)].
Proof.
  apply (hard_limit_breach_is_exceeding 1000 _ "2540001" (Demo.record 200 150 200)).
  - apply list_elem_of_further, list_elem_of_here.
  - simpl. lia.
Defined.

(** C4.  On the installation, two filesets of [data] exceed their quota
    and one user does.  The users entry is the number of exceeding users,
    1; the fileset entry is 1 as well, not the number of exceeding
    filesets, 2. *)
Theorem fileset_entry_is_not_the_count :
  (try_block (Demo.installation ["data"] false) (Demo.options ["data"] false)).2
  = Ok (processed "data" Demo.data_filesets Demo.data_users no_locals)
  ∧ main (Demo.installation ["data"] false)
    = (Demo.prologue_events ["gpfs_data"] ++ Demo.data_events false
         ++ [Epilogue "quota check completed"
               (record_stats "data" Demo.data_filesets Demo.data_users ∅)],
       returned)
  ∧ length Demo.data_users = 1%nat
  ∧ record_stats "data" Demo.data_filesets Demo.data_users ∅ !! "data_users"
    = Some 1
  ∧ length Demo.data_filesets = 2%nat
  ∧ record_stats "data" Demo.data_filesets Demo.data_users ∅ !! "data_fileset"
    = Some 1.
Proof. repeat split; vm_compute; reflexivity. Qed.

(** ** The claims on the installation *)

Lemma scratch_is_skipped : skipped Demo.the_scan "scratch".
Proof.
  exists {| filesystem := "gpfs_scratch"; data_replication_factor := 1 |}.
  split; [reflexivity|]. left. reflexivity.
Defined.

Lemma data_is_not_skipped : ¬ skipped Demo.the_scan "data".
Proof.
  intros (x & Hx & Hno). vm_compute in Hx. injection Hx as <-.
  destruct Hno as [H|H]; vm_compute in H; discriminate.
Defined.

Lemma data_is_processed dry names :
  processing (Demo.installation names dry) (Demo.options names dry)
    Demo.the_scan "data" no_locals Demo.data_filesets Demo.data_users
    (Demo.data_events dry).
Proof.
  exists {| filesystem := "gpfs_data"; data_replication_factor := 2 |},
    Demo.raw_data, (normalize Demo.raw_data 2),
    (prod_map id (effective 2) <$> Demo.raw_filesets),
    (prod_map id (effective 2) <$> Demo.raw_users).
  repeat split; reflexivity.
Defined.

Lemma skipped_target_is_passed_over_witness :
  ∃ r, main (Demo.installation ["scratch"; "data"] false)
       = (Demo.prologue_events ["gpfs_scratch"; "gpfs_data"]
            ++ Log info (processing_quota "scratch") :: Log error r
            :: Demo.data_events false
            ++ [Epilogue "quota check completed"
                  (record_stats "data" Demo.data_filesets Demo.data_users ∅)],
          returned).
Proof.
  destruct (skipped_target_is_passed_over
              (Demo.installation ["scratch"; "data"] false)
              (Demo.options ["scratch"; "data"] false)
              (Demo.prologue_events ["gpfs_scratch"; "gpfs_data"])
              Demo.the_scan "scratch")
    as (_ & _ & _ & Hscenario).
  - reflexivity.
  - reflexivity.
  - apply list_elem_of_here.
  - exact scratch_is_skipped.
  - apply (Hscenario "data" Demo.data_filesets Demo.data_users
             (Demo.data_events false)).
    + reflexivity.
    + apply data_is_processed.
Defined.

(** Mail delivery is down: the first notification for [data] raises,
    and [scratch] is never started. *)
Lemma exception_aborts_cycle_witness :
  main (Demo.broken ["data"; "scratch"] false)
  = (Demo.prologue_events ["gpfs_data"; "gpfs_scratch"]
       ++ take 8 (Demo.data_events false)
       ++ [Log exception (critical_exception_caught (Failure "connection refused"));
           Critical "Script failed in a horrible way"],
     sys_exit NAGIOS_EXIT_CRITICAL)
  ∧ reported (main (Demo.broken ["data"; "scratch"] false)).1 = [].
Proof.
  destruct (exception_aborts_cycle
              (Demo.broken ["data"; "scratch"] false)
              (Demo.options ["data"; "scratch"] false)
              (Demo.prologue_events ["gpfs_data"; "gpfs_scratch"]
                 ++ take 8 (Demo.data_events false))
              (Failure "connection refused"))
    as (Hmain & Hrep & _).
  - reflexivity.
  - vm_compute. reflexivity.
  - split; [|exact Hrep]. rewrite Hmain. by rewrite <- app_assoc.
Defined.

Lemma thresholds_are_the_script_constants_witness :
  record_stats "data" Demo.data_filesets Demo.data_users ∅ !! "data_fileset_critical"
  = Some 1
  ∧ record_stats "data" Demo.data_filesets Demo.data_users ∅ !! "data_users_warning"
    = Some 20
  ∧ record_stats "data" Demo.data_filesets Demo.data_users ∅ !! "data_users_critical"
    = Some 40.
Proof.
  destruct (thresholds_are_the_script_constants
              (Demo.configured Demo.configuration false)
              (options_of Demo.configuration false)
              (Demo.prologue_events ["gpfs_data"])
              Demo.the_scan
              (Demo.prologue_events ["gpfs_data"] ++ Demo.data_events false)
              (processed "data" Demo.data_filesets Demo.data_users no_locals)
              "data")
    as (_ & H).
  - reflexivity.
  - reflexivity.
  - vm_compute. reflexivity.
  - apply list_elem_of_here.
  - exact data_is_not_skipped.
  - exact H.
Defined.

(** C5, as stated, fails: the configuration asks for the thresholds 3, 5
    and 10, and the entries handed to the reporter are 1, 20 and 40. *)
Lemma thresholds_are_not_those_of_the_configuration :
  ∃ m, reported (main (Demo.configured Demo.configuration false)).1 = [m]
       ∧ m !! "data_fileset_critical"
         ≠ Some (fileset_critical_count Demo.configuration)
       ∧ m !! "data_users_warning"
         ≠ Some (user_warning_count Demo.configuration)
       ∧ m !! "data_users_critical"
         ≠ Some (user_critical_count Demo.configuration).
Proof.
  exists (record_stats "data" Demo.data_filesets Demo.data_users ∅).
  split; [vm_compute; reflexivity|].
  repeat split; vm_compute; discriminate.
Qed.

Lemma installation_is_flag_blind names dry :
  flag_blind (Demo.installation names dry).
Proof. split; reflexivity. Defined.

Lemma dry_run_differs_only_in_the_flag_witness :
  reported (main (with_options (with_dry_run true (Demo.options ["data"] false))
                    (Demo.installation ["data"] false))).1
  = reported (main (with_options (with_dry_run false (Demo.options ["data"] false))
                      (Demo.installation ["data"] false))).1
  ∧ Forall (λ n, passed_flag n = true)
      (notifications
         (main (with_options (with_dry_run true (Demo.options ["data"] false))
                  (Demo.installation ["data"] false))).1).
Proof.
  destruct (dry_run_differs_only_in_the_flag
              (Demo.installation ["data"] false) (Demo.options ["data"] false))
    as (_ & _ & Hrep & _ & Hflag & _).
  - apply installation_is_flag_blind.
  - split; [exact Hrep|exact Hflag].
Defined.

(** C6, as stated, fails: the notification functions are not called with
    the same arguments in a dry run and in a live run; the dry-run flag
    is one of the arguments. *)
Lemma notification_arguments_differ :
  notifications (main (Demo.installation ["data"] true)).1
  = [to_filesets tt "data" "gpfs_data" Demo.data_filesets tt true;
     to_users tt "data" "gpfs_data" Demo.data_users tt true]
  ∧ notifications (main (Demo.installation ["data"] false)).1
    = [to_filesets tt "data" "gpfs_data" Demo.data_filesets tt false;
       to_users tt "data" "gpfs_data" Demo.data_users tt false]
  ∧ notifications (main (Demo.installation ["data"] true)).1
    ≠ notifications (main (Demo.installation ["data"] false)).1.
Proof.
  assert (notifications (main (Demo.installation ["data"] true)).1
          = [to_filesets tt "data" "gpfs_data" Demo.data_filesets tt true;
             to_users tt "data" "gpfs_data" Demo.data_users tt true]) as H1
    by (vm_compute; reflexivity).
  assert (notifications (main (Demo.installation ["data"] false)).1
          = [to_filesets tt "data" "gpfs_data" Demo.data_filesets tt false;
             to_users tt "data" "gpfs_data" Demo.data_users tt false]) as H2
    by (vm_compute; reflexivity).
  split; [done|]. split; [done|]. rewrite H1, H2. discriminate.
Qed.

(** Why C6 needs its proviso: with mail delivery down, the live run fails
    and the dry run does not. *)
Remark delivery_down_tells_the_runs_apart :
  (main (Demo.broken ["data"] true)).2 = returned
  ∧ (main (Demo.broken ["data"] false)).2 = sys_exit NAGIOS_EXIT_CRITICAL.
Proof. split; vm_compute; reflexivity. Qed.

Lemma quota_report_fetched_once_before_loop_witness :
  fetches (main (Demo.installation ["scratch"; "data"] false)).1 = 1%nat
  ∧ started (main (Demo.installation ["scratch"; "data"] false)).1
    = ["scratch"; "data"].
Proof.
  destruct (proj2 (quota_report_fetched_once_before_loop
                     (Demo.installation ["scratch"; "data"] false))
              (Demo.options ["scratch"; "data"] false)
              (Demo.prologue_events ["gpfs_scratch"; "gpfs_data"])
              Demo.the_scan)
    as (ta & t1 & r & _ & _ & _ & Hloop & _ & _ & _ & _ & Hfetch & _ & _ & _ & Hall).
  - reflexivity.
  - reflexivity.
  - split; [exact Hfetch|].
    apply (Hall (processed "data" Demo.data_filesets Demo.data_users no_locals)).
    transitivity
      (for_loop (body_of (Demo.installation ["scratch"; "data"] false)
                   (Demo.options ["scratch"; "data"] false) Demo.the_scan)
         (storage (Demo.options ["scratch"; "data"] false)) no_locals).2.
    + by rewrite Hloop.
    + vm_compute. reflexivity.
Defined.

Lemma stats_reported_after_notifications_witness :
  ∃ t l,
    try_block (Demo.installation ["scratch"; "data"] false)
      (Demo.options ["scratch"; "data"] false) = (t, Ok l)
    ∧ record_stats "data" Demo.data_filesets Demo.data_users ∅ = stats l
    ∧ reported t = [].
Proof.
  destruct (stats_reported_after_notifications
              (Demo.installation ["scratch"; "data"] false)
              (Demo.options ["scratch"; "data"] false)
              (Demo.prologue_events ["gpfs_scratch"; "gpfs_data"])
              Demo.the_scan
              (record_stats "data" Demo.data_filesets Demo.data_users ∅))
    as (t & l & Htry & Hm & _ & Hrep & _).
  - reflexivity.
  - reflexivity.
  - assert (reported (main (Demo.installation ["scratch"; "data"] false)).1
            = [record_stats "data" Demo.data_filesets Demo.data_users ∅]) as ->
      by (vm_compute; reflexivity).
    apply list_elem_of_here.
  - exists t, l. split; [exact Htry|]. split; [exact Hm|exact Hrep].
Defined.

Lemma unknown_storage_name_stops_before_loop_witness :
  main (Demo.installation ["data"; "home"] false)
  = ([Call_AccountpageClient (Some "secret"); Call_map_uids_to_names;
      Call_VscConfiguration; Call_LdapQuery tt; Call_GpfsOperations;
      Call_VscStorage;
      Log exception (critical_exception_caught (KeyError "home"));
      Critical "Script failed in a horrible way"],
     sys_exit NAGIOS_EXIT_CRITICAL).
Proof.
  destruct (unknown_storage_name_stops_before_loop
              (Demo.installation ["data"; "home"] false)
              (Demo.options ["data"; "home"] false)
              Demo.vsc_storage "home")
    as (t & err & _ & _ & Hmain & _ & _ & _ & _ & Hkey).
  - reflexivity.
  - reflexivity.
  - apply list_elem_of_further, list_elem_of_here.
  - reflexivity.
  - destruct (Hkey tt tt tt tt eq_refl eq_refl eq_refl eq_refl eq_refl)
      as (s' & -> & Hin & Hnone & ->).
    rewrite Hmain.
    apply elem_of_cons in Hin as [->|Hin]; [vm_compute in Hnone; discriminate|].
    apply list_elem_of_singleton in Hin as ->. reflexivity.
Defined.

Lemma empty_target_list_completes_witness :
  main (Demo.installation [] false)
  = (Demo.prologue_events [] ++ [Epilogue "quota check completed" ∅], returned).
Proof.
  destruct (empty_target_list_completes
              (Demo.installation [] false) (Demo.options [] false))
    as (_ & _ & Hok & _).
  - reflexivity.
  - reflexivity.
  - apply (Hok (Demo.prologue_events []) Demo.the_scan). reflexivity.
Defined.

(** ** The further properties on the installation *)

Lemma error_records_are_those_of_the_skipped_targets_witness :
  error_records (main (Demo.installation ["scratch"; "data"] false)).1
  = [non_existent_filesystem "gpfs_scratch"].
Proof.
  rewrite (error_records_are_those_of_the_skipped_targets
             (Demo.installation ["scratch"; "data"] false)
             (Demo.options ["scratch"; "data"] false)
             (Demo.prologue_events ["gpfs_scratch"; "gpfs_data"])
             Demo.the_scan
             (Demo.prologue_events ["gpfs_scratch"; "gpfs_data"]
                ++ Log info (processing_quota "scratch")
                :: Log error (non_existent_filesystem "gpfs_scratch")
                :: Demo.data_events false)
             (processed "data" Demo.data_filesets Demo.data_users no_locals)).
  - reflexivity.
  - reflexivity.
  - reflexivity.
  - vm_compute. reflexivity.
Defined.

Lemma order_of_targets_does_not_matter_witness :
  ∃ t', for_loop (body_of (Demo.installation ["scratch"; "data"] false)
                    (Demo.options ["scratch"; "data"] false) Demo.the_scan)
          ["data"; "scratch"] no_locals
        = (t', Ok (processed "data" Demo.data_filesets Demo.data_users no_locals)).
Proof.
  apply (order_of_targets_does_not_matter
           (Demo.installation ["scratch"; "data"] false)
           (Demo.options ["scratch"; "data"] false) Demo.the_scan
           ["scratch"; "data"] ["data"; "scratch"] no_locals
           (Log info (processing_quota "scratch")
              :: Log error (non_existent_filesystem "gpfs_scratch")
              :: Demo.data_events false)).
  - apply perm_swap.
  - vm_compute. reflexivity.
Defined.

Lemma repeated_target_changes_nothing_witness :
  ∃ t', body_of (Demo.installation ["data"] false) (Demo.options ["data"] false)
          Demo.the_scan "data"
          (processed "data" Demo.data_filesets Demo.data_users no_locals)
        = (t', Ok (processed "data" Demo.data_filesets Demo.data_users no_locals)).
Proof.
  destruct (repeated_target_changes_nothing
              (Demo.installation ["data"] false) (Demo.options ["data"] false)
              Demo.the_scan ["data"] no_locals (Demo.data_events false)
              (processed "data" Demo.data_filesets Demo.data_users no_locals)
              "data")
    as (t' & Ht' & _).
  - apply list_elem_of_here.
  - vm_compute. reflexivity.
  - by exists t'.
Defined.

Lemma stats_hold_five_entries_per_processed_target_witness :
  size (stats (processed "data" Demo.data_filesets Demo.data_users no_locals))
  = (5 * size (exceeding_users
                 (processed "data" Demo.data_filesets Demo.data_users no_locals)))%nat.
Proof.
  destruct (stats_hold_five_entries_per_processed_target
              (Demo.installation ["scratch"; "data"] false)
              (Demo.options ["scratch"; "data"] false)
              (Demo.prologue_events ["gpfs_scratch"; "gpfs_data"])
              Demo.the_scan
              (Demo.prologue_events ["gpfs_scratch"; "gpfs_data"]
                 ++ Log info (processing_quota "scratch")
                 :: Log error (non_existent_filesystem "gpfs_scratch")
                 :: Demo.data_events false)
              (processed "data" Demo.data_filesets Demo.data_users no_locals))
    as (_ & _ & _ & Hsize).
  - reflexivity.
  - vm_compute. reflexivity.
  - exact Hsize.
Defined.

Lemma entries_of_a_processed_target_witness :
  ∃ ef eu,
    exceeding_users
      (processed "data" Demo.data_filesets Demo.data_users no_locals) !! "data"
    = Some eu
    ∧ exceeding_filesets
        (processed "data" Demo.data_filesets Demo.data_users no_locals) !! "data"
      = Some ef
    ∧ stats (processed "data" Demo.data_filesets Demo.data_users no_locals)
        !! "data_users" = Some (Z.of_nat (length eu))
    ∧ stats (processed "data" Demo.data_filesets Demo.data_users no_locals)
        !! "data_fileset" = Some (if truthy ef then 1 else 0).
Proof.
  destruct (entries_of_a_processed_target
              (Demo.installation ["data"] false) (Demo.options ["data"] false)
              (Demo.prologue_events ["gpfs_data"]) Demo.the_scan
              (Demo.prologue_events ["gpfs_data"] ++ Demo.data_events false)
              (processed "data" Demo.data_filesets Demo.data_users no_locals)
              "data")
    as (ef & eu & _ & _ & _ & Hf & Hu & Hnu & _ & Hnf & _).
  - reflexivity.
  - vm_compute. reflexivity.
  - apply list_elem_of_here.
  - exact data_is_not_skipped.
  - exists ef, eu. split; [exact Hu|]. split; [exact Hf|]. split; [exact Hnu|exact Hnf].
Defined.

(** The quota maps of [home], the second target, cannot be built: the
    notifications for [data] have been sent, no [stats] are reported. *)
Lemma failure_leaves_earlier_notifications_sent_witness :
  (main (Cases.home_fails ["data"; "home"] false)).2 = sys_exit NAGIOS_EXIT_CRITICAL
  ∧ reported (main (Cases.home_fails ["data"; "home"] false)).1 = []
  ∧ ∃ x ef eu,
      Cases.vsc_storage2 !! "data" = Some x
      ∧ to_filesets tt "data" (filesystem x) ef tt false
          ∈ notifications (main (Cases.home_fails ["data"; "home"] false)).1
      ∧ to_users tt "data" (filesystem x) eu tt false
          ∈ notifications (main (Cases.home_fails ["data"; "home"] false)).1.
Proof.
  destruct (failure_leaves_earlier_notifications_sent
              (Cases.home_fails ["data"; "home"] false)
              (Demo.options ["data"; "home"] false)
              (Demo.prologue_events ["gpfs_data"; "gpfs_data"])
              Cases.the_scan2 ["data"] "home" []
              (for_loop (body_of (Cases.home_fails ["data"; "home"] false)
                           (Demo.options ["data"; "home"] false) Cases.the_scan2)
                 ["data"] no_locals).1
              (processed "data" Demo.data_filesets Demo.data_users no_locals)
              [Log info (processing_quota "home");
               Call_get_mmrepquota_maps Demo.raw_data "home" "gpfs_data" tt 1]
              (Failure "mmrepquota failed"))
    as (Hmain & Hrep & Hsent).
  - reflexivity.
  - reflexivity.
  - reflexivity.
  - vm_compute. reflexivity.
  - vm_compute. reflexivity.
  - split; [by rewrite Hmain|]. split; [exact Hrep|].
    destruct (Hsent "data") as (x & ef & eu & Hx & _ & _ & Hf & Hu & _).
    + apply list_elem_of_here.
    + intros (x & Hx & Hno). vm_compute in Hx. injection Hx as <-.
      destruct Hno as [H|H]; vm_compute in H; discriminate.
    + exists x, ef, eu. split; [exact Hx|]. split; [exact Hf|exact Hu].
Defined.

Lemma missing_quota_map_is_a_key_error_witness :
  body_of (Cases.users_only ["data"] false) (Demo.options ["data"] false)
    Demo.the_scan "data" no_locals
  = ([Log info (processing_quota "data");
      Call_get_mmrepquota_maps Demo.raw_data "data" "gpfs_data" tt 2],
     Raise (KeyError "FILESET")).
Proof.
  destruct (missing_quota_map_is_a_key_error
              (Cases.users_only ["data"] false) (Demo.options ["data"] false)
              Demo.the_scan "data" no_locals
              {| filesystem := "gpfs_data"; data_replication_factor := 2 |}
              Demo.raw_data (delete "FILESET" (normalize Demo.raw_data 2)))
    as (Hfileset & _).
  - reflexivity.
  - reflexivity.
  - reflexivity.
  - reflexivity.
  - apply Hfileset. reflexivity.
Defined.

(** Without the users, [process_fileset_quota] has run before the
    [KeyError]. *)
Remark missing_users_map_is_found_late :
  body_of (Cases.filesets_only ["data"] false) (Demo.options ["data"] false)
    Demo.the_scan "data" no_locals
  = (take 3 (Demo.data_events false), Raise (KeyError "USR")).
Proof. vm_compute. reflexivity. Qed.

Lemma loop_raises_only_what_the_tools_raise_witness :
  (∃ raw s fs fsets rf qsm,
     get_mmrepquota_maps (Cases.users_only ["data"] false) raw s fs fsets rf = Ok qsm
     ∧ ((qsm !! "FILESET" = None ∧ KeyError "FILESET" = KeyError "FILESET")
        ∨ (qsm !! "USR" = None ∧ KeyError "FILESET" = KeyError "USR")))
  ∨ (∃ raw s fs fsets rf,
       get_mmrepquota_maps (Cases.users_only ["data"] false) raw s fs fsets rf
       = Raise (KeyError "FILESET"))
  ∨ (∃ st g s fs q cl d,
       process_fileset_quota (Cases.users_only ["data"] false) st g s fs q cl d
       = Raise (KeyError "FILESET"))
  ∨ (∃ st g s fs q u cl d,
       process_user_quota (Cases.users_only ["data"] false) st g s fs q u cl d
       = Raise (KeyError "FILESET"))
  ∨ (∃ g s fs i cl d,
       notify_exceeding_filesets (Cases.users_only ["data"] false) g s fs i cl d
       = Raise (KeyError "FILESET"))
  ∨ (∃ g s fs i cl d,
       notify_exceeding_users (Cases.users_only ["data"] false) g s fs i cl d
       = Raise (KeyError "FILESET")).
Proof.
  apply (loop_raises_only_what_the_tools_raise
           (Cases.users_only ["data"] false) (Demo.options ["data"] false)
           (Demo.prologue_events ["gpfs_data"]) Demo.the_scan
           (Demo.prologue_events ["gpfs_data"] ++ take 2 (Demo.data_events false))
           (KeyError "FILESET")).
  - reflexivity.
  - vm_compute. reflexivity.
Defined.

Lemma reporter_is_told_once_at_the_end_witness :
  ∃ t ev,
    (main (Demo.broken ["data"; "scratch"] false)).1 = t ++ [ev]
    ∧ Forall (λ ev, is_report ev = false) t.
Proof.
  destruct (reporter_is_told_once_at_the_end
              (Demo.broken ["data"; "scratch"] false)
              (Demo.options ["data"; "scratch"] false))
    as (t & ev & Ht & Hquiet & _).
  - reflexivity.
  - exists t, ev. split; [exact Ht|exact Hquiet].
Defined.

Lemma list_filesystems_is_asked_about_the_targets_witness :
  ∃ tfs,
    Call_list_filesystems tt tfs ∈ Demo.prologue_events ["gpfs_scratch"; "gpfs_data"]
    ∧ Forall2 (λ s fs, ∃ x, Demo.vsc_storage !! s = Some x ∧ filesystem x = fs)
        ["scratch"; "data"] tfs.
Proof.
  destruct (list_filesystems_is_asked_about_the_targets
              (Demo.installation ["scratch"; "data"] false)
              (Demo.options ["scratch"; "data"] false)
              (Demo.prologue_events ["gpfs_scratch"; "gpfs_data"]) Demo.the_scan)
    as (tfs & fsd & Hin & Hall & _).
  - reflexivity.
  - exists tfs. split; [exact Hin|exact Hall].
Defined.

Lemma two_notifications_per_processed_target_witness :
  length (notifications (main (Demo.installation ["scratch"; "data"] false)).1)
  = 2%nat.
Proof.
  destruct (two_notifications_per_processed_target
              (Demo.installation ["scratch"; "data"] false)
              (Demo.options ["scratch"; "data"] false)
              (Demo.prologue_events ["gpfs_scratch"; "gpfs_data"])
              Demo.the_scan
              (Demo.prologue_events ["gpfs_scratch"; "gpfs_data"]
                 ++ Log info (processing_quota "scratch")
                 :: Log error (non_existent_filesystem "gpfs_scratch")
                 :: Demo.data_events false)
              (processed "data" Demo.data_filesets Demo.data_users no_locals))
    as (Hlen & _).
  - reflexivity.
  - reflexivity.
  - vm_compute. reflexivity.
  - rewrite Hlen. reflexivity.
Defined.

Lemma tools_are_called_for_their_own_storage_witness :
  Forall (for_a_storage Demo.vsc_storage)
    (Demo.prologue_events ["gpfs_data"] ++ Demo.data_events false).
Proof.
  apply (tools_are_called_for_their_own_storage
           (Demo.installation ["data"] false) (Demo.options ["data"] false)
           (Demo.prologue_events ["gpfs_data"]) Demo.the_scan
           (Demo.prologue_events ["gpfs_data"] ++ Demo.data_events false)
           (Ok (processed "data" Demo.data_filesets Demo.data_users no_locals))).
  - reflexivity.
  - vm_compute. reflexivity.
Defined.

(** [data_users] is a storage name of its own here, and also the key of
    the users entry of [data]. *)
Lemma iteration_leaves_other_targets_alone_witness :
  stats (processed "data" Demo.data_filesets Demo.data_users no_locals)
    !! "data_users_users"
  = None.
Proof.
  destruct (iteration_leaves_other_targets_alone
              (Demo.installation ["data"] false) (Demo.options ["data"] false)
              Demo.the_scan "data" no_locals (Demo.data_events false)
              (processed "data" Demo.data_filesets Demo.data_users no_locals)
              "data_users" "_users")
    as (Hstats & _).
  - vm_compute. reflexivity.
  - discriminate.
  - do 4 apply list_elem_of_further. apply list_elem_of_here.
  - exact Hstats.
Defined.
